(** * Iaito: the pdc decompiler backend task and the plugin manager

    A shallow embedding of [R2pdcCmdDecompiler::decompileAt] (the
    single-flight backend task and the translation of its JSON answer into
    an [RCodeMeta]) and of [PluginManager] (directory resolution, native and
    Python plugin loading, teardown), followed by the properties proved
    about them.

    Conventions.  A C++ pointer is an [option]: [None] is [nullptr].  Text is
    a byte string.  Machine integers are [Z] with the wrap-around written
    out.  What Qt, radare2 and CPython do is written down next to the place
    where the code calls them. *)

From stdpp Require Import base strings list gmap pretty.
From Stdlib Require Import ZArith QArith Ascii String.

Set Warnings "-register-all".
Local Open Scope Z_scope.

(** ** The Qt value types the translation reads *)

Module Qt.

(** [QJsonValue]; the constructors are the members of [QJsonValue::Type].
    A JSON number is a double (as in Qt 5, where [toVariant] gives a
    [QVariant] of a double for it); [JDouble d] holds the rational that is
    the value of that double. *)
Inductive QJsonValue : Type :=
| JNull
| JBool (b : bool)
| JDouble (d : Q)
| JString (s : string)
| JArray (a : list QJsonValue)
| JObject (o : list (string * QJsonValue))
| JUndefined.

(** An array is the list of its values; an object is the list of its
    members, whose keys are distinct. *)
Definition QJsonArray : Type := list QJsonValue.
Definition QJsonObject : Type := list (string * QJsonValue).

(** [QJsonDocument]: null (what a failed parse leaves), an array or an
    object. *)
Inductive QJsonDocument : Type :=
| DocNull
| DocArray (a : QJsonArray)
| DocObject (o : QJsonObject).

(** [QJsonDocument::object()]: the empty object unless the document holds
    an object. *)
Definition object (doc : QJsonDocument) : QJsonObject :=
  match doc with
  | DocObject o => o
  | _ => []
  end.

Definition isEmpty (o : QJsonObject) : bool :=
  match o with
  | [] => true
  | _ :: _ => false
  end.

(** [QJsonObject::operator[]] on a non-const object: the value stored under
    [key], and a [Null] value (which the operator inserts) when there is
    none. *)
Fixpoint subscript (o : QJsonObject) (key : string) : QJsonValue :=
  match o with
  | [] => JNull
  | (k, v) :: rest => if String.eqb k key then v else subscript rest key
  end.

Definition toString (v : QJsonValue) : string :=
  match v with
  | JString s => s
  | _ => ""
  end.

Definition isString (v : QJsonValue) : bool :=
  match v with
  | JString _ => true
  | _ => false
  end.

Definition toArray (v : QJsonValue) : QJsonArray :=
  match v with
  | JArray a => a
  | _ => []
  end.

Definition toObject (v : QJsonValue) : QJsonObject :=
  match v with
  | JObject o => o
  | _ => []
  end.

Definition INT_MIN : Z := -2147483648.
Definition INT_MAX : Z := 2147483647.
Definition UT64_MAX : Z := 18446744073709551615.

Definition isWhole (d : Q) : bool := (Qnum d mod Zpos (Qden d) =? 0).
Definition wholePart (d : Q) : Z := Qnum d / Zpos (Qden d).

(** [QJsonValue::toInt(defaultValue)]: the number when the value is a
    number, is whole and fits an [int]; [defaultValue] otherwise. *)
Definition toInt (v : QJsonValue) (defaultValue : Z) : Z :=
  match v with
  | JDouble d =>
      if isWhole d && (INT_MIN <=? wholePart d) && (wholePart d <=? INT_MAX)
      then wholePart d
      else defaultValue
  | _ => defaultValue
  end.

(** [QVariant], as far as [QJsonValue::toVariant] produces it. *)
Inductive QVariant : Type :=
| VInvalid
| VNullptr
| VBool (b : bool)
| VDouble (d : Q)
| VString (s : string)
| VList (l : list QVariant)
| VMap (m : list (string * QVariant)).

Fixpoint toVariant (v : QJsonValue) : QVariant :=
  match v with
  | JNull => VNullptr
  | JBool b => VBool b
  | JDouble d => VDouble d
  | JString s => VString s
  | JArray a => VList (List.map toVariant a)
  | JObject o => VMap (List.map (fun kv => (fst kv, toVariant (snd kv))) o)
  | JUndefined => VInvalid
  end.

(** Arithmetic on doubles.  A finite double is kept as the rational that is
    its value, and an operation gives the double nearest to the exact
    result, the one with the even significand when two are as near
    (binary64: a significand of 53 bits, and no unit in the last place below
    2^-1074).  The results met here stay far from the largest double. *)

(** Whether [m * 2 ^ e <= n], for an exponent of either sign. *)
Definition scaledLe (m e n : Z) : bool :=
  if 0 <=? e then m * 2 ^ e <=? n else m <=? n * 2 ^ (- e).

Definition roundToDouble (q : Q) : Q :=
  let n := Z.abs (Qnum q) in
  let m := Zpos (Qden q) in
  if n =? 0 then 0%Q
  else
    (* 2 ^ e <= n / m < 2 ^ (e + 1), and the unit in the last place is 2 ^ u *)
    let e0 := Z.log2 n - Z.log2 m in
    let e := if scaledLe m e0 n then e0 else e0 - 1 in
    let u := Z.max (e - 52) (-1074) in
    let num := if 0 <=? u then n else n * 2 ^ (- u) in
    let den := if 0 <=? u then m * 2 ^ u else m in
    let k := num / den in
    let r := num mod den in
    let k := if 2 * r <? den then k
             else if den <? 2 * r then k + 1
             else if Z.even k then k else k + 1 in
    let k := if 0 <=? Qnum q then k else - k in
    if 0 <=? u then inject_Z (k * 2 ^ u) else Qmake k (Z.to_pos (2 ^ (- u))).

Definition fadd (a b : Q) : Q := roundToDouble (a + b).
Definition fsub (a b : Q) : Q := roundToDouble (a - b).

Definition INT64_MIN : Z := - 2 ^ 63.
Definition INT64_MAX : Z := 2 ^ 63 - 1.

(** The conversion of a double to [qint64] drops the fraction.  C++ leaves
    the conversion undefined when the whole part does not fit a [qint64];
    the instruction that x86-64 has for it gives the least [qint64] then,
    and that is what is written here. *)
Definition to_qint64 (d : Q) : Z :=
  let whole := Z.quot (Qnum d) (Zpos (Qden d)) in
  if (INT64_MIN <=? whole) && (whole <=? INT64_MAX) then whole else INT64_MIN.

(** The sum of two [qint64], in 64 bits. *)
Definition add_qint64 (a b : Z) : Z := (a + b + 2 ^ 63) mod 2 ^ 64 - 2 ^ 63.

(** [qRound64] of Qt 5:
    [d >= 0.0 ? qint64(d + 0.5)
              : qint64(d - double(qint64(d-1)) + 0.5) + qint64(d-1)]. *)
Definition qRound64 (d : Q) : Z :=
  if 0 <=? Qnum d
  then to_qint64 (fadd d (1 # 2))
  else
    let below := to_qint64 (fsub d 1) in
    add_qint64 (to_qint64 (fadd (fsub d (roundToDouble (inject_Z below))) (1 # 2))) below.

(** Conversion to [qulonglong]: reduction modulo 2^64. *)
Definition to_qulonglong (z : Z) : Z := z mod 2 ^ 64.

Definition isSpace (c : ascii) : bool :=
  let n := nat_of_ascii c in
  ((9 <=? n)%nat && (n <=? 13)%nat) || (n =? 32)%nat.

Definition isDigit (c : ascii) : bool :=
  let n := nat_of_ascii c in (48 <=? n)%nat && (n <=? 57)%nat.

Fixpoint skipSpaces (s : string) : string :=
  match s with
  | String c rest => if isSpace c then skipSpaces rest else s
  | EmptyString => EmptyString
  end.

Fixpoint allSpaces (s : string) : bool :=
  match s with
  | String c rest => isSpace c && allSpaces rest
  | EmptyString => true
  end.

(** Reads the decimal digits at the head of [s] on top of [acc]; gives the
    number and what follows the digits. *)
Fixpoint readDigits (s : string) (acc : Z) : Z * string :=
  match s with
  | String c rest =>
      if isDigit c
      then readDigits rest (10 * acc + (Z.of_nat (nat_of_ascii c) - 48))
      else (acc, s)
  | EmptyString => (acc, EmptyString)
  end.

(** [QString::toULongLong(&ok)] in base 10: white space around the number
    is skipped, a plus sign is allowed, then decimal digits and nothing
    else; the number has to fit 64 bits.  A failure gives 0 with [ok]
    false. *)
Definition QString_toULongLong (s : string) : Z * bool :=
  let s1 := skipSpaces s in
  let s2 := match s1 with
            | String "+"%char rest => rest
            | _ => s1
            end in
  match s2 with
  | String c _ =>
      if isDigit c
      then let '(n, rest) := readDigits s2 0 in
           if allSpaces rest && (n <=? UT64_MAX) then (n, true) else (0, false)
      else (0, false)
  | EmptyString => (0, false)
  end.

(** [QVariant::toULongLong(&ok)]: the pair of the returned number and the
    flag written to [ok].  A double goes through [qRound64], and the
    [qint64] that gives is converted to [qulonglong]. *)
Definition toULongLong (v : QVariant) : Z * bool :=
  match v with
  | VBool b => (if b then 1 else 0, true)
  | VDouble d => (to_qulonglong (qRound64 d), true)
  | VString s => QString_toULongLong s
  | VInvalid | VNullptr | VList _ | VMap _ => (0, false)
  end.

(** [QString::number(qulonglong)]: the decimal digits. *)
Definition QString_number (n : Z) : string := pretty (to_qulonglong n).

(** The line feed character. *)
Definition LF : string := String (ascii_of_nat 10) EmptyString.

(** What [strdup(s.c_str())] keeps of a [std::string]: the bytes before the
    first zero byte. *)
Fixpoint c_str (s : string) : string :=
  match s with
  | String c rest =>
      if (nat_of_ascii c =? 0)%nat then EmptyString else String c (c_str rest)
  | EmptyString => EmptyString
  end.

End Qt.

(** ** R2pdcCmdDecompiler *)

Module R2pdcCmdDecompiler.
Import Qt.

(** [RVA] is [ut64]. *)
Definition RVA : Type := Z.

(** radare2's annotated code: [RCodeMetaItemType], [RCodeMetaItem] (its
    [start] and [end] are [size_t], its offset is [ut64]) and [RCodeMeta]
    (a C string that may be [NULL], and the vector of annotations). *)
Inductive RCodeMetaItemType : Type :=
| R_CODEMETA_TYPE_OFFSET
| R_CODEMETA_TYPE_SYNTAX_HIGHLIGHT
| R_CODEMETA_TYPE_LOCAL_VARIABLE
| R_CODEMETA_TYPE_FUNCTION_PARAMETER
| R_CODEMETA_TYPE_FUNCTION_NAME
| R_CODEMETA_TYPE_GLOBAL_VARIABLE
| R_CODEMETA_TYPE_CONSTANT_VARIABLE.

Record RCodeMetaItem : Type := {
  start : Z;
  end_ : Z;
  type : RCodeMetaItemType;
  offset : Z
}.

Record RCodeMeta : Type := {
  code : option string;
  annotations : list RCodeMetaItem
}.

(** Conversion of an [int] to the 64-bit [size_t]. *)
Definition to_size_t (z : Z) : Z := z mod 2 ^ 64.

(** [r_codemeta_new(code)]: a copy of the C string (or [NULL]) and no
    annotation. *)
Definition r_codemeta_new (text : option string) : RCodeMeta :=
  {| code := c_str <$> text; annotations := [] |}.

(** [r_codemeta_item_new()]: a zeroed item. *)
Definition r_codemeta_item_new : RCodeMetaItem :=
  {| start := 0; end_ := 0; type := R_CODEMETA_TYPE_OFFSET; offset := 0 |}.

(** [r_codemeta_add_annotation(code, mi)]: pushes a copy of [mi] at the
    back of the vector. *)
Definition r_codemeta_add_annotation (c : RCodeMeta) (mi : RCodeMetaItem) : RCodeMeta :=
  {| code := code c; annotations := annotations c ++ [mi] |}.

(** [tr]: no translation is installed. *)
Definition tr (s : string) : string := s.

(** Modelled from the spec: [Decompiler::makeWarning] is defined in
    Decompiler.cpp, which is not among the sources; only a copy of it in a
    comment of R2pdcCmdDecompiler.cpp is.  The spec asks for a non-null
    warning result that stands for the failed backend answer: a fresh
    [RCodeMeta] whose text is the message, with no annotation. *)
Definition makeWarning (warningMessage : string) : option RCodeMeta :=
  Some (r_codemeta_new (Some warningMessage)).

(** The body of the loop over [json["annotations"]]: one entry. *)
Definition annotate (c : RCodeMeta) (line : QJsonValue) : RCodeMeta :=
  let lineObject := toObject line in
  if isEmpty lineObject then c
  else if negb (String.eqb (toString (subscript lineObject "type")) "offset") then c
  else
    let mi := r_codemeta_item_new in
    let mi := {| start := to_size_t (toInt (subscript lineObject "start") 0);
                 end_ := end_ mi; type := type mi; offset := offset mi |} in
    let mi := {| start := start mi;
                 end_ := to_size_t (toInt (subscript lineObject "end") 0);
                 type := type mi; offset := offset mi |} in
    let mi := {| start := start mi; end_ := end_ mi;
                 type := R_CODEMETA_TYPE_OFFSET; offset := offset mi |} in
    let '(n, ok) := toULongLong (toVariant (subscript lineObject "offset")) in
    let mi := {| start := start mi; end_ := end_ mi; type := type mi; offset := n |} in
    r_codemeta_add_annotation c mi.

(** The body of the loop over [json["errors"]]: one entry. *)
Definition appendError (codeString : string) (line : QJsonValue) : string :=
  if negb (isString line) then codeString
  else codeString +:+ (toString line +:+ LF).

(** What the completion handler builds from a non-empty answer. *)
Definition translate (json : QJsonObject) : RCodeMeta :=
  let c := r_codemeta_new None in
  let codeString := toString (subscript json "code") in
  let linesArray := toArray (subscript json "annotations") in
  let c := foldl annotate c linesArray in
  let codeString := foldl appendError codeString (toArray (subscript json "errors")) in
  {| code := Some (c_str codeString); annotations := annotations c |}.

(** An [R2Task]: its command and whether [startTask] was called. *)
Record R2Task : Type := {
  cmd : string;
  started : bool
}.

(** What can be observed of one decompiler object, in order. *)
Inductive Event : Type :=
| NewTask (t : nat) (c : string)
| StartTask (t : nat)
| DeleteTask (t : nat)
| Finished (result : option RCodeMeta).

(** One [R2pdcCmdDecompiler]: its [task] member, the tasks it has allocated
    and not deleted (by address), and the events so far. *)
Record Decompiler : Type := {
  task : option nat;
  heap : gmap nat R2Task;
  trace : list Event
}.

(** The constructor. *)
Definition new : Decompiler :=
  {| task := None; heap := ∅; trace := [] |}.

Definition decompileAt (addr : RVA) (s : Decompiler) : Decompiler :=
  match task s with
  | Some _ => s
  | None =>
      let t := fresh (dom (heap s)) in
      let c := "pdcj @ " +:+ QString_number addr in
      {| task := Some t;
         heap := <[t := {| cmd := c; started := true |}]> (heap s);
         trace := trace s ++ [NewTask t c; StartTask t] |}
  end.

(** The slot a consumer has connected to [Decompiler::finished]: the
    addresses it calls [decompileAt] with, in order, from inside its
    handler, given the result it receives. *)
Definition Consumer : Type := option RCodeMeta -> list RVA.

(** [emit finished(result)]: the signal is recorded and the consumer's slot
    runs before [emit] returns. *)
Definition emit_finished (consumer : Consumer) (result : option RCodeMeta)
    (s : Decompiler) : Decompiler :=
  foldl (fun s addr => decompileAt addr s)
        {| task := task s; heap := heap s; trace := trace s ++ [Finished result] |}
        (consumer result).

(** The state after [delete task; task = nullptr;]. *)
Definition release (t : nat) (s : Decompiler) : Decompiler :=
  {| task := None; heap := delete t (heap s); trace := trace s ++ [DeleteTask t] |}.

(** The lambda connected to [R2Task::finished]; [doc] is what
    [task->getResultJson()] returns.  Only a live task emits the signal, so
    without a task the lambda does not run. *)
Definition onTaskFinished (consumer : Consumer) (doc : QJsonDocument)
    (s : Decompiler) : Decompiler :=
  match task s with
  | None => s
  | Some t =>
      let json := object doc in
      let s := release t s in
      if isEmpty json
      then emit_finished consumer (makeWarning (tr "Failed to parse JSON from pdc")) s
      else emit_finished consumer (Some (translate json)) s
  end.

(** What happens to a decompiler object: a call of [decompileAt], or the
    backend finishing the pending task with an answer. *)
Inductive Action : Type :=
| Invoke (addr : RVA)
| Complete (doc : QJsonDocument).

Definition step (consumer : Consumer) (s : Decompiler) (a : Action) : Decompiler :=
  match a with
  | Invoke addr => decompileAt addr s
  | Complete doc => onTaskFinished consumer doc s
  end.

Definition run (consumer : Consumer) (acts : list Action) (s : Decompiler) : Decompiler :=
  foldl (step consumer) s acts.

(** The results delivered through [finished], in order. *)
Definition delivered (s : Decompiler) : list (option RCodeMeta) :=
  omap (fun e => match e with Finished r => Some r | _ => None end) (trace s).

(** The tasks created, in order. *)
Definition created (s : Decompiler) : list nat :=
  omap (fun e => match e with NewTask t _ => Some t | _ => None end) (trace s).

(** *** Vocabulary of the statements about the translation *)

(** An entry of kind offset: its [type] reads ["offset"]. *)
Definition isOffsetKind (line : QJsonValue) : bool :=
  String.eqb (toString (subscript (toObject line) "type")) "offset".

(** The annotation that stands for an entry of kind offset. *)
Definition itemOf (line : QJsonValue) : RCodeMetaItem :=
  {| start := to_size_t (toInt (subscript (toObject line) "start") 0);
     end_ := to_size_t (toInt (subscript (toObject line) "end") 0);
     type := R_CODEMETA_TYPE_OFFSET;
     offset := fst (toULongLong (toVariant (subscript (toObject line) "offset"))) |}.

(** Whether the flag [ok] comes back true for the entry's [offset]. *)
Definition offsetParses (line : QJsonValue) : bool :=
  snd (toULongLong (toVariant (subscript (toObject line) "offset"))).

(** Whether an entry is an object that has a member named [key]. *)
Definition carries (line : QJsonValue) (key : string) : bool :=
  existsb (fun kv => String.eqb (fst kv) key) (toObject line).

(** Whether the translation of the one-entry array [[line]] has an
    annotation. *)
Definition kept (line : QJsonValue) : bool :=
  match annotations (annotate (r_codemeta_new None) line) with
  | [] => false
  | _ :: _ => true
  end.

(** The text the [errors] member adds: each string entry and a line
    feed. *)
Definition errorText (errors : QJsonArray) : string :=
  foldr (fun line text => (toString line +:+ LF) +:+ text) EmptyString
        (List.filter isString errors).

Fixpoint nulFree (s : string) : bool :=
  match s with
  | String c rest => negb (nat_of_ascii c =? 0)%nat && nulFree rest
  | EmptyString => true
  end.

(** The tasks that are alive after the events [events], oldest first. *)
Definition aliveStep (live : list nat) (e : Event) : list nat :=
  match e with
  | NewTask t _ => live ++ [t]
  | DeleteTask t => List.filter (fun u => negb (u =? t)%nat) live
  | _ => live
  end.

Definition alive (events : list Event) : list nat := foldl aliveStep [] events.

(** At no point of the events are two tasks alive. *)
Definition neverTwoAlive (events : list Event) : Prop :=
  ∀ before, before `prefix_of` events → (List.length (alive before) ≤ 1)%nat.

(** The events of a decompiler never show two tasks alive, and the task
    alive after them is the one [task] points to. *)
Definition timed (s : Decompiler) : Prop :=
  neverTwoAlive (trace s) ∧
  alive (trace s) = match task s with Some t => [t] | None => [] end.

(** No task is alive but the one [task] points to. *)
Definition singleFlight (s : Decompiler) : Prop :=
  match task s with
  | None => heap s = ∅
  | Some t => ∃ r, heap s = {[t := r]}
  end.

(** *** Vocabulary of further statements *)

(** The result the completion handler delivers for an answer. *)
Definition resultOf (doc : QJsonDocument) : option RCodeMeta :=
  if isEmpty (object doc)
  then makeWarning (tr "Failed to parse JSON from pdc")
  else Some (translate (object doc)).

(** One for a pending task, zero for none. *)
Definition pending (s : Decompiler) : nat :=
  match task s with
  | Some _ => 1
  | None => 0
  end.

(** The deletions of tasks and the completions among actions. *)
Definition deletions (s : Decompiler) : list nat :=
  omap (fun e => match e with DeleteTask t => Some t | _ => None end) (trace s).

Definition completions (acts : list Action) : list QJsonDocument :=
  omap (fun a => match a with Complete doc => Some doc | Invoke _ => None end) acts.

(** Every task created has delivered its result, but the pending one, and
    as many tasks were deleted as results were delivered. *)
Definition balanced (s : Decompiler) : Prop :=
  List.length (created s) = (List.length (delivered s) + pending s)%nat ∧
  List.length (deletions s) = List.length (delivered s).

(** The actions of one round: a request, requests made while it is
    pending, and the answer. *)
Definition round (r : RVA * list RVA * QJsonDocument) : list Action :=
  Invoke (fst (fst r)) :: List.map Invoke (snd (fst r)) ++ [Complete (snd r)].

(** The keys of an object. *)
Definition keys (o : QJsonObject) : list string := List.map fst o.

(** The zero byte. *)
Definition NUL : ascii := ascii_of_nat 0.

(** What is valid of an annotation as radare2 stores it. *)
Definition wellFormedItem (mi : RCodeMetaItem) : Prop :=
  type mi = R_CODEMETA_TYPE_OFFSET ∧
  0 ≤ start mi < 2 ^ 64 ∧ 0 ≤ end_ mi < 2 ^ 64 ∧ 0 ≤ offset mi ≤ UT64_MAX.

End R2pdcCmdDecompiler.

(** ** PluginManager *)

Module PluginManager.

(** *** Strings and paths *)

(** [QString::endsWith]. *)
Definition endsWith (s suffix : string) : bool :=
  let n := String.length s in
  let m := String.length suffix in
  (m <=? n)%nat && String.eqb (substring (n - m) m s) suffix.

(** [QString::chopped(len)]. *)
Definition chopped (s : string) (len : nat) : string :=
  substring 0 (String.length s - len) s.

Fixpoint split_from (sep : ascii) (s : string) (part : string) : list string :=
  match s with
  | EmptyString => [part]
  | String c rest =>
      if Ascii.eqb c sep
      then part :: split_from sep rest EmptyString
      else split_from sep rest (part +:+ String c EmptyString)
  end.

(** [QString::split(sep, Qt::SkipEmptyParts)]; [IAITO_QT_SKIP_EMPTY_PARTS]
    is that flag. *)
Definition split (sep : ascii) (s : string) : list string :=
  List.filter (fun part => negb (String.eqb part EmptyString)) (split_from sep s EmptyString).

(** [QDir(dir).filePath(fileName)] for a relative [fileName]. *)
Definition filePath (dir fileName : string) : string :=
  if String.eqb dir EmptyString then fileName
  else if endsWith dir "/" then dir +:+ fileName
  else dir +:+ "/" +:+ fileName.

(** The directories that the names [parts] lead through, one below the
    other, from [root] down. *)
Fixpoint chain (root : string) (parts : list string) : list string :=
  match parts with
  | [] => []
  | part :: rest => filePath root part :: chain (filePath root part) rest
  end.

(** The directories on the way to a path, the path's own directory last:
    for [/a/b/c] they are [/a], [/a/b] and [/a/b/c]. *)
Definition pathTo (path : string) : list string :=
  chain (if String.prefix "/" path then "/" else EmptyString) (split "/"%char path).

(** *** What the loaders get from Qt and from the interpreter *)

(** The root object of a loaded library: its address, and whether
    [qobject_cast<IaitoPlugin *>] succeeds on it. *)
Record QObject : Type := {
  address : nat;
  isIaitoPlugin : bool
}.

Definition qobject_cast (plugin : QObject) : option nat :=
  if isIaitoPlugin plugin then Some (address plugin) else None.

(** The object a Python factory returned: whether Shiboken finds a
    conversion to [IaitoPlugin *] for it, and the pointer that conversion
    writes. *)
Record PyPluginObject : Type := {
  convertible : bool;
  cppPointer : option nat
}.

(** The attribute [create_iaito_plugin]: whether it is callable and what a
    call returns ([None] when it raises). *)
Record PyFunction : Type := {
  callable : bool;
  call : option PyPluginObject
}.

(** An imported module: its attribute [create_iaito_plugin], if any. *)
Record PyModule : Type := {
  create_iaito_plugin : option PyFunction
}.

(** The build options and the platform. *)
Record Env : Type := {
  (** [QStandardPaths::writableLocation(AppDataLocation)] *)
  writableLocation : string;
  (** [QStandardPaths::standardLocations(AppDataLocation)] *)
  standardLocations : list string;
  APPIMAGE : bool;
  applicationDirPath : string;
  IAITO_EXTRA_PLUGIN_DIRS : string;
  listSeparator : ascii;
  IAITO_ENABLE_PYTHON_BINDINGS : bool;
  (** whether the build defines [NDEBUG], which compiles [assert] out *)
  NDEBUG : bool;
  (** [QDir(path).absolutePath()] *)
  absolutePath : string -> string;
  (** whether a directory of this absolute path can be created, along with
      the directories above it that are missing; one that cannot be created
      fails at the first directory that is missing, before anything is
      created *)
  mayCreate : string -> bool;
  (** [QDir(path).entryList(QDir::Files)], by absolute path *)
  entryList_Files : string -> list string;
  (** [QDir(path).entryList(QDir::Dirs | QDir::Files | QDir::NoDotAndDotDot)] *)
  entryList_DirsFiles : string -> list string;
  (** [QPluginLoader(path).instance()] and [errorString()] *)
  instance : string -> option QObject;
  errorString : string -> string;
  (** [PyImport_ImportModule(name)] under a module search path *)
  PyImport_ImportModule : list string -> string -> option PyModule
}.

(** *** The manager *)

Inductive Event : Type :=
| LoadedFrom (dir : string)
| Loaded (n : Z)
| Warning (message subject : string)
| SetupPlugin (plugin : nat)
| PushBack (plugin : nat)
| Terminate (plugin : nat)
| Delete (plugin : nat).

(** The manager and what it acts on: the vector [plugins] of owning
    pointers, the directories that exist (by absolute path), the
    interpreter's module search path, and the events so far. *)
Record Manager : Type := {
  plugins : list (option nat);
  dirs : gset string;
  pythonPath : list string;
  log : list Event
}.

(** The manager of a process that starts with the directories [dirs0]. *)
Definition new (dirs0 : gset string) : Manager :=
  {| plugins := []; dirs := dirs0; pythonPath := []; log := [] |}.

Definition emit (e : Event) (s : Manager) : Manager :=
  {| plugins := plugins s; dirs := dirs s; pythonPath := pythonPath s;
     log := log s ++ [e] |}.

Definition push_back (p : option nat) (s : Manager) : Manager :=
  {| plugins := plugins s ++ [p]; dirs := dirs s; pythonPath := pythonPath s;
     log := log s ++ match p with Some a => [PushBack a] | None => [] end |}.

Section WithEnv.
Variable env : Env.

(** [QDir(path).exists()]. *)
Definition exists_ (path : string) (s : Manager) : bool :=
  bool_decide (absolutePath env path ∈ dirs s).

(** [QDir::mkdir]: the directory is there afterwards when it can be
    created. *)
Definition mkdir (dir name : string) (s : Manager) : Manager :=
  let p := absolutePath env (filePath dir name) in
  if mayCreate env p
  then {| plugins := plugins s; dirs := {[p]} ∪ dirs s;
          pythonPath := pythonPath s; log := log s |}
  else s.

(** [QDir::mkpath]: when the directory can be created, it is there
    afterwards and so is every directory on the way to it, the missing ones
    being created; when it cannot, nothing changes. *)
Definition mkpath (dir name : string) (s : Manager) : Manager :=
  let p := absolutePath env (filePath dir name) in
  if mayCreate env p
  then {| plugins := plugins s; dirs := {[p]} ∪ list_to_set (pathTo p) ∪ dirs s;
          pythonPath := pythonPath s; log := log s |}
  else s.

(** [QDir::cd]: the new path when that directory exists. *)
Definition cd (dir name : string) (s : Manager) : option string :=
  if exists_ (filePath dir name) s then Some (filePath dir name) else None.

Definition loadNativePlugin (directory : string) (s : Manager) (fileName : string) : Manager :=
  match instance env (filePath (absolutePath env directory) fileName) with
  | None =>
      let e := errorString env (filePath (absolutePath env directory) fileName) in
      if negb (String.eqb e EmptyString)
      then emit (Warning ("Load Error for plugin " +:+ fileName +:+ " :") e) s
      else s
  | Some plugin =>
      match qobject_cast plugin with
      | None => s
      | Some iaitoPlugin =>
          push_back (Some iaitoPlugin) (emit (SetupPlugin iaitoPlugin) s)
      end
  end.

Definition loadNativePlugins (directory : string) (s : Manager) : Manager :=
  foldl (loadNativePlugin directory) s (entryList_Files env (absolutePath env directory)).

Definition loadPythonPlugin (moduleName : string) (s : Manager) : option nat * Manager :=
  match PyImport_ImportModule env (pythonPath s) moduleName with
  | None => (None, emit (Warning "Couldn't load module for plugin:" moduleName) s)
  | Some pluginModule =>
      match create_iaito_plugin pluginModule with
      | None =>
          (None, emit (Warning "Plugin module does not contain create_iaito_plugin() function:" moduleName) s)
      | Some createPluginFunc =>
          if negb (callable createPluginFunc)
          then (None, emit (Warning "Plugin module does not contain create_iaito_plugin() function:" moduleName) s)
          else
            match call createPluginFunc with
            | None => (None, emit (Warning "Plugin's create_iaito_plugin() function failed." EmptyString) s)
            | Some pluginObject =>
                if negb (convertible pluginObject)
                then (None, emit (Warning "Plugin's create_iaito_plugin() function did not return an instance of IaitoPlugin:" moduleName) s)
                else
                  match cppPointer pluginObject with
                  | None => (None, emit (Warning "Error during the setup of IaitoPlugin:" moduleName) s)
                  | Some plugin => (Some plugin, s)
                  end
            end
      end
  end.

Definition loadPythonEntry (s : Manager) (fileName : string) : Manager :=
  if String.eqb fileName "__pycache__" then s
  else
    let moduleName := if endsWith fileName ".py" then chopped fileName 3 else fileName in
    let '(iaitoPlugin, s) := loadPythonPlugin moduleName s in
    match iaitoPlugin with
    | None => s
    | Some p => push_back (Some p) (emit (SetupPlugin p) s)
    end.

Definition addPythonPath (path : string) (s : Manager) : Manager :=
  {| plugins := plugins s; dirs := dirs s; pythonPath := pythonPath s ++ [path];
     log := log s |}.

Definition loadPythonPlugins (directory : string) (s : Manager) : Manager :=
  let s := addPythonPath (absolutePath env directory) s in
  foldl loadPythonEntry s (entryList_DirsFiles env (absolutePath env directory)).

Definition loadPluginsFromDir (pluginsDir : string) (writable : bool) (s : Manager) : Manager :=
  let s := emit (LoadedFrom (absolutePath env pluginsDir)) s in
  let loadedPlugins := Z.of_nat (List.length (plugins s)) in
  if negb (exists_ pluginsDir s) then s
  else
    let s := if writable then mkdir pluginsDir "native" s else s in
    let s := match cd pluginsDir "native" s with
             | Some nativePluginsDir => loadNativePlugins nativePluginsDir s
             | None => s
             end in
    let s :=
      if IAITO_ENABLE_PYTHON_BINDINGS env then
        let s := if writable then mkdir pluginsDir "python" s else s in
        match cd pluginsDir "python" s with
        | Some pythonPluginsDir => loadPythonPlugins (absolutePath env pythonPluginsDir) s
        | None => s
        end
      else s in
    emit (Loaded (Z.of_nat (List.length (plugins s)) - loadedPlugins)) s.

(** The deleter of [PluginPtr]. *)
Definition PluginTerminator (s : Manager) (plugin : nat) : Manager :=
  emit (Delete plugin) (emit (Terminate plugin) s).

(** [plugins.clear()]: every element is destroyed, front to back; a
    [PluginPtr] that holds [nullptr] does not call its deleter. *)
Definition destroyPlugins (s : Manager) : Manager :=
  let s' := foldl (fun s p => match p with
                              | Some plugin => PluginTerminator s plugin
                              | None => s
                              end) s (plugins s) in
  {| plugins := []; dirs := dirs s'; pythonPath := pythonPath s'; log := log s' |}.

Definition getPluginDirectories (s : Manager) : list string :=
  let result := List.map (fun location => filePath location "plugins") (standardLocations env) in
  let result :=
    if APPIMAGE env then
      let plugdir := applicationDirPath env in
      let plugdir := match cd plugdir ".." s with Some d => d | None => plugdir end in
      match cd plugdir "share/RadareOrg/Iaito/plugins" s with
      | Some d => result ++ [d]
      | None => result
      end
    else result in
  result ++ split (listSeparator env) (IAITO_EXTRA_PLUGIN_DIRS env).

Definition getUserPluginsDirectory (s : Manager) : string * Manager :=
  let location := writableLocation env in
  if String.eqb location EmptyString then (EmptyString, s)
  else
    let s := mkpath location "plugins" s in
    match cd location "plugins" s with
    | None => (EmptyString, s)
    | Some pluginsDir => (absolutePath env pluginsDir, s)
    end.

(** The loop of [loadPlugins] over [getPluginDirectories()]: one
    directory. *)
Definition loadOtherDir (userPluginDir : string) (s : Manager) (dir : string) : Manager :=
  if String.eqb (absolutePath env dir) userPluginDir then s
  else loadPluginsFromDir dir false s.

(** [assert(expression)]: nothing in a build that defines [NDEBUG];
    otherwise the process is aborted when the expression is false. *)
Definition assert (expression : bool) : option unit :=
  if NDEBUG env || expression then Some () else None.

(** [loadPlugins]; [None] is the process aborted by the failed
    [assert(plugins.empty())]. *)
Definition loadPlugins (enablePlugins : bool) (s : Manager) : option Manager :=
  match assert (bool_decide (plugins s = [])) with
  | None => None
  | Some _ =>
      if negb enablePlugins then Some s
      else
        let '(userPluginDir, s) := getUserPluginsDirectory s in
        let s := if negb (String.eqb userPluginDir EmptyString)
                 then loadPluginsFromDir userPluginDir true s
                 else s in
        let pluginDirs := getPluginDirectories s in
        Some (foldl (loadOtherDir userPluginDir) s pluginDirs)
  end.

End WithEnv.

(** The directories handed to [loadPluginsFromDir], in order. *)
Definition scanOf (e : Event) : option string :=
  match e with
  | LoadedFrom d => Some d
  | _ => None
  end.

Definition scanned (s : Manager) : list string := omap scanOf (log s).

(** The events of the plugins' lifecycle. *)
Definition isLifecycle (e : Event) : bool :=
  match e with
  | SetupPlugin _ | PushBack _ | Terminate _ | Delete _ => true
  | _ => false
  end.

Definition lifecycle (s : Manager) : list Event :=
  List.filter isLifecycle (log s).

(** *** Vocabulary of the statements about the manager *)

(** A pointer that a native module gave: the root object of some library
    passes the cast to [IaitoPlugin]. *)
Definition nativeOrigin (env : Env) (p : nat) : Prop :=
  ∃ path plugin, instance env path = Some plugin ∧ qobject_cast plugin = Some p.

(** A pointer that a Python module gave: it imports, its factory is
    callable and returns an object that converts to this pointer. *)
Definition pythonOrigin (env : Env) (p : nat) : Prop :=
  ∃ searchPath moduleName m f obj,
    PyImport_ImportModule env searchPath moduleName = Some m ∧
    create_iaito_plugin m = Some f ∧ callable f = true ∧
    call f = Some obj ∧ convertible obj = true ∧ cppPointer obj = Some p.

Definition satisfiesContract (env : Env) (p : nat) : Prop :=
  nativeOrigin env p ∨ pythonOrigin env p.

(** A native module that loads and whose root object fails the cast. *)
Definition nativeLacksContract (env : Env) (directory fileName : string) : Prop :=
  ∃ plugin,
    instance env (filePath (absolutePath env directory) fileName) = Some plugin ∧
    qobject_cast plugin = None.

(** A Python module whose factory returns an object for which there is no
    conversion to [IaitoPlugin]. *)
Definition pythonLacksContract (env : Env) (searchPath : list string)
    (moduleName : string) : Prop :=
  ∃ m f obj,
    PyImport_ImportModule env searchPath moduleName = Some m ∧
    create_iaito_plugin m = Some f ∧ callable f = true ∧
    call f = Some obj ∧ convertible obj = false.

(** A Python module whose object converts, to a null pointer. *)
Definition pythonConvertsToNull (env : Env) (searchPath : list string)
    (moduleName : string) : Prop :=
  ∃ m f obj,
    PyImport_ImportModule env searchPath moduleName = Some m ∧
    create_iaito_plugin m = Some f ∧ callable f = true ∧
    call f = Some obj ∧ convertible obj = true ∧ cppPointer obj = None.

Definition setupAndPush (ps : list nat) : list Event :=
  flat_map (fun p => [SetupPlugin p; PushBack p]) ps.

Definition terminateAndDelete (ps : list (option nat)) : list Event :=
  flat_map (fun q => match q with
                     | Some p => [Terminate p; Delete p]
                     | None => []
                     end) ps.

(** Two managers with the same plugins, the same module search path and the
    same lifecycle events. *)
Definition similar (s s' : Manager) : Prop :=
  plugins s = plugins s' ∧ pythonPath s = pythonPath s' ∧ lifecycle s = lifecycle s'.

(** What the loaders add to the log: a message, or the activation of a
    plugin, which is the call of [setupPlugin] and then the push. *)
Inductive Block : Type :=
| Note (e : Event)
| Activation (p : nat).

Definition render (b : Block) : list Event :=
  match b with
  | Note e => [e]
  | Activation p => [SetupPlugin p; PushBack p]
  end.

Definition activated (blocks : list Block) : list nat :=
  omap (fun b => match b with Activation p => Some p | Note _ => None end) blocks.

(** A note is no lifecycle event, and an activated pointer comes from a
    module that satisfies the plugin contract. *)
Definition okBlock (env : Env) (b : Block) : Prop :=
  match b with
  | Note e => isLifecycle e = false
  | Activation p => satisfiesContract env p
  end.

(** From [s] to [s'] the directories [scans] were handed to
    [loadPluginsFromDir] and the pointers [ps] were activated, and nothing
    else happened to the vector and to the log. *)
Definition grows (env : Env) (scans : list string) (ps : list nat) (s s' : Manager) : Prop :=
  ∃ blocks,
    plugins s' = plugins s ++ List.map Some ps ∧
    log s' = log s ++ flat_map render blocks ∧
    Forall (okBlock env) blocks ∧
    activated blocks = ps ∧
    omap scanOf (flat_map render blocks) = scans.


(** How often [setupPlugin] was called on [p]. *)
Definition setupCalls (p : nat) (l : list Event) : nat :=
  List.length (List.filter (fun e => match e with
                                     | SetupPlugin q => (q =? p)%nat
                                     | _ => false
                                     end) l).

(** How often [p] is in the vector. *)
Definition occurrences (p : nat) (ps : list (option nat)) : nat :=
  List.length (List.filter (fun q => match q with
                                     | Some q => (q =? p)%nat
                                     | None => false
                                     end) ps).

(** *** Installations *)

(** A user directory, one system directory and the extra directories
    [extra]; [/opt/p] holds a native plugin, a library that is not a plugin
    and a text file, and Python modules. *)
Definition installation (extra : string) (ndebug : bool) : Env := {|
  writableLocation := "/home/u/.local/share/iaito";
  standardLocations := ["/home/u/.local/share/iaito"; "/usr/share/iaito"];
  APPIMAGE := false;
  applicationDirPath := "/usr/bin";
  IAITO_EXTRA_PLUGIN_DIRS := extra;
  listSeparator := ":"%char;
  IAITO_ENABLE_PYTHON_BINDINGS := true;
  NDEBUG := ndebug;
  absolutePath := fun path => path;
  mayCreate := fun _ => true;
  entryList_Files := fun dir =>
    if String.eqb dir "/opt/p/native" then ["a.so"; "b.so"; "c.txt"] else [];
  entryList_DirsFiles := fun dir =>
    if String.eqb dir "/opt/p/python" then ["__pycache__"; "m.py"; "n.py"; "z.py"; "pkg"] else [];
  instance := fun path =>
    if String.eqb path "/opt/p/native/a.so"
    then Some {| address := 7; isIaitoPlugin := true |}
    else if String.eqb path "/opt/p/native/b.so"
    then Some {| address := 8; isIaitoPlugin := false |}
    else None;
  errorString := fun _ => "not a plugin";
  PyImport_ImportModule := fun _ name =>
    if String.eqb name "m"
    then Some {| create_iaito_plugin :=
                   Some {| callable := true;
                           call := Some {| convertible := true; cppPointer := Some 9%nat |} |} |}
    else if String.eqb name "n"
    then Some {| create_iaito_plugin :=
                   Some {| callable := true;
                           call := Some {| convertible := false; cppPointer := None |} |} |}
    else if String.eqb name "z"
    then Some {| create_iaito_plugin :=
                   Some {| callable := true;
                           call := Some {| convertible := true; cppPointer := None |} |} |}
    else None
|}.

(** [/opt/p] named twice in the list of extra directories, in a build with
    assertions and in one without, and [/opt/p] named once. *)
Definition twiceListed : Env := installation "/opt/p:/opt/p" false.

Definition twiceListedRelease : Env := installation "/opt/p:/opt/p" true.

Definition onceListed : Env := installation "/opt/p" false.

Definition twiceListedDirs : gset string :=
  {[ "/opt/p"; "/opt/p/native"; "/opt/p/python"; "/usr/share/iaito/plugins" ]}.

(** *** Vocabulary of further statements *)

(** The pointer a native file gives: its root object, cast. *)
Definition nativePointer (env : Env) (directory fileName : string) : option nat :=
  match instance env (filePath (absolutePath env directory) fileName) with
  | Some plugin => qobject_cast plugin
  | None => None
  end.

(** The pointer a Python module gives under a module search path. *)
Definition pythonPointer (env : Env) (searchPath : list string) (moduleName : string) : option nat :=
  match PyImport_ImportModule env searchPath moduleName with
  | Some m =>
      match create_iaito_plugin m with
      | Some f =>
          if callable f
          then match call f with
               | Some obj => if convertible obj then cppPointer obj else None
               | None => None
               end
          else None
      | None => None
      end
  | None => None
  end.

(** The pointer an entry of a Python directory gives. *)
Definition entryPointer (env : Env) (searchPath : list string) (fileName : string) : option nat :=
  if String.eqb fileName "__pycache__" then None
  else pythonPointer env searchPath
         (if endsWith fileName ".py" then chopped fileName 3 else fileName).

(** The parts of a list joined with a separator between them. *)
Fixpoint join (sep : ascii) (parts : list string) : string :=
  match parts with
  | [] => EmptyString
  | [part] => part
  | part :: rest => part +:+ String sep (join sep rest)
  end.

(** Whether a character occurs in a string. *)
Fixpoint occurs (c : ascii) (s : string) : bool :=
  match s with
  | String x rest => Ascii.eqb x c || occurs c rest
  | EmptyString => false
  end.

(** A part as [split] gives it: not empty, without the separator. *)
Definition isPart (sep : ascii) (part : string) : Prop :=
  part ≠ EmptyString ∧ occurs sep part = false.

(** How often [terminate] was called on [p], and how often [p] was
    deleted. *)
Definition terminateCalls (p : nat) (l : list Event) : nat :=
  List.length (List.filter (fun e => match e with
                                     | Terminate q => (q =? p)%nat
                                     | _ => false
                                     end) l).

Definition deleteCalls (p : nat) (l : list Event) : nat :=
  List.length (List.filter (fun e => match e with
                                     | Delete q => (q =? p)%nat
                                     | _ => false
                                     end) l).

(** The warnings of a log. *)
Definition warnings (l : list Event) : list Event :=
  List.filter (fun e => match e with Warning _ _ => true | _ => false end) l.

End PluginManager.

(** ** IaitoCommon.h *)

Module IaitoCommon.

(** *** The address and size strings *)

Definition hexDigit (d : Z) : ascii :=
  match d with
  | 0 => "0" | 1 => "1" | 2 => "2" | 3 => "3" | 4 => "4" | 5 => "5" | 6 => "6"
  | 7 => "7" | 8 => "8" | 9 => "9" | 10 => "a" | 11 => "b" | 12 => "c"
  | 13 => "d" | 14 => "e" | _ => "f"
  end%char.

(** [qulltoa(l, 16)]: the hexadecimal digits of [l] in front of [acc], as
    long as [l] is not zero; a 64-bit number has at most 16 of them. *)
Fixpoint qulltoa (fuel : nat) (l : Z) (acc : string) : string :=
  match fuel with
  | O => acc
  | S fuel =>
      if l =? 0 then acc
      else qulltoa fuel (l / 16) (String (hexDigit (l mod 16)) acc)
  end.

Fixpoint fill (c : ascii) (n : nat) : string :=
  match n with
  | O => EmptyString
  | S n => String c (fill c n)
  end.

(** [QString::asprintf] for the one conversion [%#llx], with the flag
    [0] and a field width or without: the digits, zeros up to the width less
    the two characters of the base, the base [0x] (Qt writes it for zero
    too), and blanks up to the width. *)
Definition asprintf_llx (zeroPadded : bool) (width : nat) (l : Z) : string :=
  let l := l mod 2 ^ 64 in
  let num_str := if l =? 0 then "0" else qulltoa 16 l EmptyString in
  let num_str :=
    if zeroPadded
    then fill "0" (width - String.length num_str - 2) +:+ num_str
    else num_str in
  let num_str := "0x" +:+ num_str in
  fill " " (width - String.length num_str) +:+ num_str.

Definition RAddressString (addr : Z) : string := asprintf_llx true 10 addr.

Definition RSizeString (size : Z) : string := asprintf_llx false 0 size.

Definition RHexString (size : Z) : string := asprintf_llx false 0 size.

(** The value of a hexadecimal digit, if it is one. *)
Definition hexValue (c : ascii) : option Z :=
  let n := Z.of_nat (nat_of_ascii c) in
  if (48 <=? n) && (n <=? 57) then Some (n - 48)
  else if (97 <=? n) && (n <=? 102) then Some (n - 87)
  else None.

(** Reads a text of hexadecimal digits on top of [acc]; [None] when a
    character is no digit. *)
Fixpoint readHex (s : string) (acc : Z) : option Z :=
  match s with
  | String c rest =>
      match hexValue c with
      | Some d => readHex rest (16 * acc + d)
      | None => None
      end
  | EmptyString => Some acc
  end.

(** Reads what [RAddressString] and [RSizeString] write: [0x] and
    digits. *)
Definition fromHexString (s : string) : option Z :=
  match s with
  | String "0" (String "x" digits) =>
      match digits with
      | EmptyString => None
      | _ => readHex digits 0
      end
  | _ => None
  end.

(** *** The list iteration macro *)

(** An [RList]: a null pointer, or the nodes from [head], each with its
    [data] pointer. *)
Definition RList (A : Type) : Type := option (list (option A)).

(** The loop of [IaitoRListForeach] from the node [it] on: it goes on while
    there is a node and its [data] is not null. *)
Fixpoint IaitoRListForeach_from {A S : Type} (it : list (option A))
    (body : S → A → S) (st : S) : S :=
  match it with
  | [] => st
  | None :: _ => st
  | Some x :: n => IaitoRListForeach_from n body (body st x)
  end.

(** [IaitoRListForeach(list, it, type, x) body]. *)
Definition IaitoRListForeach {A S : Type} (list : RList A)
    (body : S → A → S) (st : S) : S :=
  match list with
  | None => st
  | Some head => IaitoRListForeach_from head body st
  end.

(** The data before the first null [data]. *)
Fixpoint visited {A : Type} (it : list (option A)) : list A :=
  match it with
  | Some x :: n => x :: visited n
  | _ => []
  end.

End IaitoCommon.

(** * Properties of the decompiler backend task *)

Section DecompilerProofs.
Import Qt R2pdcCmdDecompiler.

Implicit Types (s : Decompiler) (consumer : Consumer) (doc : QJsonDocument).

(** ** The conversions and a run, on examples *)

Example toInt_examples :
  toInt (JDouble (3 # 1)) 0 = 3 ∧ toInt (JDouble (7 # 2)) 0 = 0 ∧
  toInt (JDouble (2147483648 # 1)) 0 = 0 ∧ toInt (JDouble (-2147483648 # 1)) 0 = -2147483648 ∧
  toInt (JString "3") 0 = 0 ∧ toInt JNull 0 = 0.
Proof. repeat split. Qed.

Example toULongLong_examples :
  toULongLong (toVariant (JDouble (4096 # 1))) = (4096, true) ∧
  toULongLong (toVariant (JDouble (-1 # 1))) = (18446744073709551615, true) ∧
  toULongLong (toVariant (JDouble (5 # 2))) = (3, true) ∧
  toULongLong (toVariant (JString " +77 ")) = (77, true) ∧
  toULongLong (toVariant (JString "12a")) = (0, false) ∧
  toULongLong (toVariant (JString "18446744073709551616")) = (0, false) ∧
  toULongLong (toVariant (JBool true)) = (1, true) ∧
  toULongLong (toVariant JNull) = (0, false) ∧
  toULongLong (toVariant (JArray [JDouble (1 # 1)])) = (0, false).
Proof. repeat split. Qed.

Example qRound64_examples :
  qRound64 (1 # 2) = 1 ∧ qRound64 (-1 # 2) = 0 ∧ qRound64 (-5 # 2) = -2 ∧
  qRound64 (-13 # 5) = -3 ∧ qRound64 (9007199254740992 # 1) = 9007199254740992 ∧
  fadd (9007199254740991 # 18014398509481984) (1 # 2) = (9007199254740992 # 9007199254740992)%Q ∧
  qRound64 (9007199254740991 # 18014398509481984) = 1 ∧
  qRound64 (4503599627370497 # 1) = 4503599627370498 ∧
  qRound64 (9223372036854775808 # 1) = INT64_MIN ∧
  toULongLong (toVariant (JDouble (18446744071578845184 # 1))) = (9223372036854775808, true).
Proof. vm_compute. repeat split. Qed.

Example run_example :
  trace (run (fun _ => [5]) [Invoke 4096; Invoke 7; Complete DocNull] new)
  = [NewTask 0 "pdcj @ 4096"; StartTask 0; DeleteTask 0;
     Finished (Some {| code := Some "Failed to parse JSON from pdc"; annotations := [] |});
     NewTask 0 "pdcj @ 5"; StartTask 0].
Proof. vm_compute. reflexivity. Qed.

(** ** The state machine *)

Lemma decompileAt_pending addr s :
  is_Some (task s) → decompileAt addr s = s.
Proof. intros [t Ht]. unfold decompileAt. by rewrite Ht. Qed.

Lemma decompileAt_idle addr s :
  task s = None →
  decompileAt addr s =
    {| task := Some (fresh (dom (heap s)));
       heap := <[fresh (dom (heap s)) :=
                   {| cmd := "pdcj @ " +:+ QString_number addr; started := true |}]> (heap s);
       trace := trace s ++ [NewTask (fresh (dom (heap s))) ("pdcj @ " +:+ QString_number addr);
                            StartTask (fresh (dom (heap s)))] |}.
Proof. intros Ht. unfold decompileAt. by rewrite Ht. Qed.

Lemma decompileAt_task addr s : is_Some (task (decompileAt addr s)).
Proof. unfold decompileAt. destruct (task s) eqn:Ht; simpl; [rewrite Ht|]; eauto. Qed.

Lemma singleFlight_new : singleFlight new.
Proof. done. Qed.

Lemma singleFlight_decompileAt addr s :
  singleFlight s → singleFlight (decompileAt addr s).
Proof.
  unfold singleFlight, decompileAt. destruct (task s) eqn:Ht.
  - by rewrite Ht.
  - intros ->. simpl. eexists. by rewrite insert_empty.
Qed.

Lemma singleFlight_release t s :
  singleFlight s → task s = Some t → heap (release t s) = ∅.
Proof.
  unfold singleFlight. intros Hs Ht. rewrite Ht in Hs. destruct Hs as [r Hr].
  simpl. rewrite Hr. apply delete_singleton_eq.
Qed.

Lemma calls_pending addrs s :
  is_Some (task s) → foldl (fun s addr => decompileAt addr s) s addrs = s.
Proof.
  induction addrs as [|a addrs IH]; intros Hs; [done|].
  simpl. rewrite (decompileAt_pending a s Hs). by apply IH.
Qed.

(** Of the calls a consumer makes in a row, the first one decides. *)
Lemma calls_first addr addrs s :
  foldl (fun s addr => decompileAt addr s) s (addr :: addrs) = decompileAt addr s.
Proof. simpl. apply calls_pending, decompileAt_task. Qed.

Lemma singleFlight_calls addrs s :
  singleFlight s → singleFlight (foldl (fun s addr => decompileAt addr s) s addrs).
Proof.
  destruct addrs as [|a addrs]; [done|]. rewrite calls_first.
  apply singleFlight_decompileAt.
Qed.

Lemma singleFlight_emit consumer result s :
  singleFlight s → singleFlight (emit_finished consumer result s).
Proof. intros Hs. unfold emit_finished. by apply singleFlight_calls. Qed.

Lemma singleFlight_onTaskFinished consumer doc s :
  singleFlight s → singleFlight (onTaskFinished consumer doc s).
Proof.
  intros Hs. unfold onTaskFinished. destruct (task s) as [t|] eqn:Ht; [|done].
  assert (singleFlight (release t s)) as Hr.
  { unfold singleFlight. simpl. by apply singleFlight_release. }
  destruct (isEmpty (object doc)); by apply singleFlight_emit.
Qed.

Lemma singleFlight_run consumer acts s :
  singleFlight s → singleFlight (run consumer acts s).
Proof.
  unfold run. revert s. induction acts as [|a acts IH]; intros s Hs; [done|].
  simpl. apply IH. destruct a; simpl.
  - by apply singleFlight_decompileAt.
  - by apply singleFlight_onTaskFinished.
Qed.

Lemma singleFlight_size s : singleFlight s → (size (heap s) ≤ 1)%nat.
Proof.
  unfold singleFlight. destruct (task s).
  - intros [r ->]. rewrite map_size_singleton. lia.
  - intros ->. rewrite map_size_empty. lia.
Qed.

(** ** Tasks alive along the events *)

Lemma prefix_snoc_inv {A} (before l : list A) (x : A) :
  before `prefix_of` l ++ [x] → before `prefix_of` l ∨ before = l ++ [x].
Proof.
  intros [k Hk]. destruct k as [|y k _] using rev_ind.
  - right. by rewrite app_nil_r in Hk.
  - left. rewrite List.app_assoc in Hk. apply app_inj_tail in Hk as [-> _].
    by apply prefix_app_r.
Qed.

Lemma alive_snoc (events : list Event) (e : Event) :
  alive (events ++ [e]) = aliveStep (alive events) e.
Proof. unfold alive. apply foldl_snoc. Qed.

Lemma neverTwoAlive_nil : neverTwoAlive [].
Proof. intros before ->%prefix_nil_inv. simpl. lia. Qed.

Lemma neverTwoAlive_snoc (events : list Event) (e : Event) :
  neverTwoAlive events →
  (List.length (aliveStep (alive events) e) ≤ 1)%nat →
  neverTwoAlive (events ++ [e]).
Proof.
  intros Hn He before [Hp | ->]%prefix_snoc_inv; [by apply Hn|].
  by rewrite alive_snoc.
Qed.

Lemma timed_new : timed new.
Proof. split; [apply neverTwoAlive_nil|done]. Qed.

Lemma timed_decompileAt addr s : timed s → timed (decompileAt addr s).
Proof.
  intros [Hn Ha]. unfold decompileAt. destruct (task s) eqn:Ht.
  - split; [done|by rewrite Ht].
  - simpl. set (t := fresh (dom (heap s))). set (c := "pdcj @ " +:+ QString_number addr).
    change [NewTask t c; StartTask t] with ([NewTask t c] ++ [StartTask t]).
    rewrite List.app_assoc. split.
    + apply neverTwoAlive_snoc; [apply neverTwoAlive_snoc; [done|]|];
        rewrite ?alive_snoc, Ha; simpl; lia.
    + simpl. by rewrite !alive_snoc, Ha.
Qed.

Lemma timed_calls addrs s :
  timed s → timed (foldl (fun s addr => decompileAt addr s) s addrs).
Proof.
  revert s. induction addrs as [|a addrs IH]; intros s Hs; [done|].
  simpl. by apply IH, timed_decompileAt.
Qed.

Lemma timed_release t s : timed s → task s = Some t → timed (release t s).
Proof.
  intros [Hn Ha] Ht. rewrite Ht in Ha. unfold release, timed. simpl.
  assert (aliveStep (alive (trace s)) (DeleteTask t) = []) as Hd.
  { rewrite Ha. simpl. by rewrite Nat.eqb_refl. }
  split.
  - apply neverTwoAlive_snoc; [done|]. rewrite Hd. simpl. lia.
  - by rewrite alive_snoc.
Qed.

Lemma timed_emit consumer result s : timed s → timed (emit_finished consumer result s).
Proof.
  intros [Hn Ha]. unfold emit_finished. apply timed_calls. unfold timed. simpl. split.
  - apply neverTwoAlive_snoc; [done|]. simpl. rewrite Ha. destruct (task s); simpl; lia.
  - by rewrite alive_snoc.
Qed.

Lemma timed_onTaskFinished consumer doc s :
  timed s → timed (onTaskFinished consumer doc s).
Proof.
  intros Hs. unfold onTaskFinished. destruct (task s) as [t|] eqn:Ht; [|done].
  pose proof (timed_release t s Hs Ht) as Hr.
  destruct (isEmpty (object doc)); by apply timed_emit.
Qed.

Lemma timed_run consumer acts s : timed s → timed (run consumer acts s).
Proof.
  unfold run. revert s. induction acts as [|a acts IH]; intros s Hs; [done|].
  simpl. apply IH. destruct a; simpl.
  - by apply timed_decompileAt.
  - by apply timed_onTaskFinished.
Qed.

Lemma delivered_app s evs :
  delivered {| task := task s; heap := heap s; trace := trace s ++ evs |}
  = delivered s ++ omap (fun e => match e with Finished r => Some r | _ => None end) evs.
Proof. unfold delivered. simpl. by rewrite omap_app. Qed.

Lemma delivered_decompileAt addr s : delivered (decompileAt addr s) = delivered s.
Proof.
  unfold decompileAt. destruct (task s); [done|].
  unfold delivered. simpl. rewrite omap_app. simpl. by rewrite app_nil_r.
Qed.

Lemma delivered_calls addrs s :
  delivered (foldl (fun s addr => decompileAt addr s) s addrs) = delivered s.
Proof.
  revert s. induction addrs as [|a addrs IH]; intros s; [done|].
  simpl. by rewrite IH, delivered_decompileAt.
Qed.

Lemma delivered_emit consumer result s :
  delivered (emit_finished consumer result s) = delivered s ++ [result].
Proof.
  unfold emit_finished. rewrite delivered_calls. unfold delivered. simpl.
  by rewrite omap_app.
Qed.

Lemma delivered_release t s : delivered (release t s) = delivered s.
Proof. unfold delivered, release. simpl. rewrite omap_app. simpl. by rewrite app_nil_r. Qed.

Lemma trace_calls addrs s :
  ∃ rest, trace (foldl (fun s addr => decompileAt addr s) s addrs) = trace s ++ rest.
Proof.
  destruct addrs as [|a addrs]; [exists []; by rewrite app_nil_r|].
  rewrite calls_first. unfold decompileAt. destruct (task s); simpl; eauto.
  exists []. by rewrite app_nil_r.
Qed.

(** ** The translation of the answer *)

Lemma append_cons (x : ascii) (a b : string) : String x a +:+ b = String x (a +:+ b).
Proof. reflexivity. Qed.

Lemma append_assoc (a b c : string) : (a +:+ b) +:+ c = a +:+ (b +:+ c).
Proof. induction a as [|x a IH]; [done|]. by rewrite !append_cons, IH. Qed.

Lemma append_empty_r (a : string) : a +:+ EmptyString = a.
Proof. induction a as [|x a IH]; [done|]. by rewrite append_cons, IH. Qed.

Lemma c_str_nulFree (text : string) : nulFree text = true → c_str text = text.
Proof.
  induction text as [|c text IH]; simpl; [done|].
  destruct (nat_of_ascii c =? 0)%nat; simpl; [done|]. intros H. by rewrite IH.
Qed.

Lemma isOffsetKind_nonempty line :
  isOffsetKind line = true → isEmpty (toObject line) = false.
Proof. unfold isOffsetKind. by destruct (toObject line). Qed.

Lemma annotate_offset c line :
  isOffsetKind line = true →
  annotate c line = r_codemeta_add_annotation c (itemOf line).
Proof.
  intros H. unfold annotate. rewrite (isOffsetKind_nonempty line H).
  unfold isOffsetKind in H. rewrite H. simpl. unfold itemOf.
  by destruct (toULongLong (toVariant (subscript (toObject line) "offset"))).
Qed.

Lemma annotate_other c line : isOffsetKind line = false → annotate c line = c.
Proof.
  intros H. unfold annotate. destruct (isEmpty (toObject line)); [done|].
  unfold isOffsetKind in H. by rewrite H.
Qed.

Lemma annotate_code c line : code (annotate c line) = code c.
Proof.
  destruct (isOffsetKind line) eqn:H.
  - by rewrite annotate_offset.
  - by rewrite annotate_other.
Qed.

Lemma annotations_loop lines c :
  annotations (foldl annotate c lines)
  = annotations c ++ List.map itemOf (List.filter isOffsetKind lines).
Proof.
  revert c. induction lines as [|line lines IH]; intros c; simpl.
  - by rewrite app_nil_r.
  - rewrite IH. destruct (isOffsetKind line) eqn:H.
    + rewrite annotate_offset by done. simpl. by rewrite <- List.app_assoc.
    + by rewrite annotate_other.
Qed.

Lemma errors_loop errors codeString :
  foldl appendError codeString errors = codeString +:+ errorText errors.
Proof.
  revert codeString. unfold errorText.
  induction errors as [|line errors IH]; intros codeString; simpl.
  - by rewrite append_empty_r.
  - rewrite IH. unfold appendError. destruct (isString line); simpl; [|done].
    by rewrite !append_assoc.
Qed.

Lemma carries_false_subscript line key :
  carries line key = false → subscript (toObject line) key = JNull.
Proof.
  unfold carries. induction (toObject line) as [|[k v] o IH]; simpl; [done|].
  destruct (String.eqb k key); simpl; [done|]. apply IH.
Qed.






(** ** The single-flight task *)

(** C1.  A decompiler object has at most one task alive at any time, after
    every action and also at every point of the events inside one, and a
    call of [decompileAt] made while a task is pending changes nothing: the
    state is the same, so no task is created and no result is delivered
    because of it, and what follows goes on as if the call had not been
    made. *)
Theorem decompileAt_single_flight consumer acts addr s :
  (let r := run consumer acts new in
   singleFlight r ∧ (size (heap r) ≤ 1)%nat ∧ neverTwoAlive (trace r)) ∧
  (is_Some (task s) →
   decompileAt addr s = s ∧
   created (decompileAt addr s) = created s ∧
   delivered (decompileAt addr s) = delivered s ∧
   ∀ more, run consumer (Invoke addr :: more) s = run consumer more s).
Proof.
  split.
  - pose proof (singleFlight_run consumer acts new singleFlight_new) as H.
    split; [done|]. split; [by apply singleFlight_size|].
    apply (timed_run consumer acts new timed_new).
  - intros Hs. pose proof (decompileAt_pending addr s Hs) as E.
    rewrite E. repeat split; try done.
    intros more. unfold run. simpl. by rewrite E.
Qed.

Lemma decompileAt_single_flight_witness :
  is_Some (task (decompileAt 4096 new)) ∧
  decompileAt 7 (decompileAt 4096 new) = decompileAt 4096 new.
Proof.
  assert (is_Some (task (decompileAt 4096 new))) as H.
  { exists 0%nat. vm_compute. reflexivity. }
  split; [exact H|].
  exact (proj1 (proj2 (decompileAt_single_flight (fun _ => []) [] 7
                         (decompileAt 4096 new)) H)).
Defined.

(** C2.  When the pending task completes, whatever the answer, the task is
    deleted and [task] is null before [finished] is emitted: the consumer
    runs on an idle object with no task alive, and a [decompileAt] it calls
    from its handler starts a new task. *)
Theorem finished_after_release consumer acts doc t :
  let s := run consumer acts new in
  let result := if isEmpty (object doc)
                then makeWarning (tr "Failed to parse JSON from pdc")
                else Some (translate (object doc)) in
  task s = Some t →
  onTaskFinished consumer doc s = emit_finished consumer result (release t s) ∧
  task (release t s) = None ∧
  heap (release t s) = ∅ ∧
  (∃ rest, trace (onTaskFinished consumer doc s)
           = trace s ++ [DeleteTask t; Finished result] ++ rest) ∧
  (∀ addr more, consumer result = addr :: more →
     ∃ t', task (onTaskFinished consumer doc s) = Some t' ∧
           heap (onTaskFinished consumer doc s)
           = {[t' := {| cmd := "pdcj @ " +:+ QString_number addr; started := true |}]} ∧
           trace (onTaskFinished consumer doc s)
           = trace s ++ [DeleteTask t; Finished result;
                         NewTask t' ("pdcj @ " +:+ QString_number addr); StartTask t']).
Proof.
  intros s result Ht.
  assert (singleFlight s) as Hs by apply singleFlight_run, singleFlight_new.
  assert (onTaskFinished consumer doc s = emit_finished consumer result (release t s)) as E.
  { unfold onTaskFinished, result. rewrite Ht. by destruct (isEmpty (object doc)). }
  pose proof (singleFlight_release t s Hs Ht) as Hh.
  rewrite E. repeat split; try done.
  - unfold emit_finished.
    destruct (trace_calls (consumer result)
                {| task := task (release t s); heap := heap (release t s);
                   trace := trace (release t s) ++ [Finished result] |}) as [rest Hr].
    exists rest. rewrite Hr. simpl. by rewrite <- !List.app_assoc.
  - intros addr more Hc. unfold emit_finished. rewrite Hc, calls_first.
    rewrite decompileAt_idle by done. simpl in Hh. simpl. rewrite Hh.
    eexists. split; [done|]. split; [by rewrite insert_empty|].
    by rewrite <- !List.app_assoc.
Qed.

Lemma finished_after_release_witness :
  let s := run (fun _ => [5]) [Invoke 4096] new in
  task s = Some 0%nat ∧
  task (onTaskFinished (fun _ => [5]) DocNull s) = Some 0%nat ∧
  heap (release 0 s) = ∅.
Proof.
  assert (task (run (fun _ => [5]) [Invoke 4096] new) = Some 0%nat) as H.
  { vm_compute. reflexivity. }
  pose proof (finished_after_release (fun _ => [5]) [Invoke 4096] DocNull 0%nat H) as W.
  split; [exact H|]. split.
  - vm_compute. reflexivity.
  - exact (proj1 (proj2 (proj2 W))).
Defined.

(** C3.  When the answer of the pending task is empty or is not a JSON
    object (a null document, as a failed parse leaves, or an array),
    [finished] is emitted exactly once, and what it delivers is a non-null
    result: the warning whose text is the failure message. *)
Theorem warning_on_empty_answer consumer doc s t :
  task s = Some t →
  doc = DocNull ∨ (∃ a, doc = DocArray a) ∨ doc = DocObject [] →
  ∃ w, makeWarning (tr "Failed to parse JSON from pdc") = Some w ∧
       code w = Some "Failed to parse JSON from pdc" ∧
       annotations w = [] ∧
       delivered (onTaskFinished consumer doc s) = delivered s ++ [Some w].
Proof.
  intros Ht Hd.
  assert (isEmpty (object doc) = true) as He.
  { destruct Hd as [-> | [[a ->] | ->]]; done. }
  eexists. split; [reflexivity|]. split; [reflexivity|]. split; [reflexivity|].
  unfold onTaskFinished. rewrite Ht, He.
  by rewrite delivered_emit, delivered_release.
Qed.

Lemma warning_on_empty_answer_witness :
  ∃ w, code w = Some "Failed to parse JSON from pdc" ∧
       delivered (onTaskFinished (fun _ => []) DocNull (decompileAt 4096 new)) = [Some w].
Proof.
  assert (task (decompileAt 4096 new) = Some 0%nat) as H.
  { vm_compute. reflexivity. }
  destruct (warning_on_empty_answer (fun _ => []) DocNull (decompileAt 4096 new) 0%nat H
              (or_introl eq_refl)) as [w [_ [Hc [_ Hd]]]].
  exists w. split; [exact Hc|exact Hd].
Defined.

(** ** What the translation keeps *)

Lemma kept_offset line : isOffsetKind line = true → kept line = true.
Proof.
  intros H. unfold kept. rewrite annotate_offset by done. done.
Qed.

Lemma kept_only_offset line : kept line = true → isOffsetKind line = true.
Proof.
  destruct (isOffsetKind line) eqn:H; [done|].
  unfold kept. by rewrite annotate_other.
Qed.

Lemma annotate_skip pre line post c :
  isOffsetKind line = false →
  foldl annotate c (pre ++ line :: post) = foldl annotate c (pre ++ post).
Proof.
  intros H. rewrite !foldl_app. simpl. by rewrite annotate_other.
Qed.

Lemma scaledLe_log2 n : 0 < n → scaledLe 2 (Z.log2 n - 1) n = true.
Proof.
  intros Hn. unfold scaledLe.
  destruct (Z.log2_spec n Hn) as [Hl _]. pose proof (Z.log2_nonneg n) as H0.
  destruct (Z.leb_spec 0 (Z.log2 n - 1)) as [H|H].
  - apply Z.leb_le. replace (2 * 2 ^ (Z.log2 n - 1)) with (2 ^ Z.log2 n); [done|].
    replace (Z.log2 n) with (Z.succ (Z.log2 n - 1)) at 1 by lia.
    rewrite Z.pow_succ_r by lia. done.
  - apply Z.leb_le. replace (Z.log2 n) with 0 by lia. simpl. lia.
Qed.

(** Half of a whole number below 2^53 is a double: rounding leaves its
    value as it is. *)
Lemma roundToDouble_halves n :
  0 < n < 2 ^ 53 →
  ∃ j, 0 ≤ j ∧ roundToDouble (n # 2) = Qmake (n * 2 ^ j) (Z.to_pos (2 * 2 ^ j)).
Proof.
  intros [Hn Hb]. exists (52 - Z.log2 n).
  assert (0 ≤ Z.log2 n < 53) as Hl.
  { split; [apply Z.log2_nonneg|]. apply Z.log2_lt_pow2; lia. }
  split; [lia|]. unfold roundToDouble.
  change (Qnum (n # 2)) with n. change (Z.pos (Qden (n # 2))) with 2.
  rewrite Z.abs_eq by lia. destruct (Z.eqb_spec n 0); [lia|].
  change (Z.log2 2) with 1. rewrite scaledLe_log2 by done.
  rewrite Z.max_l by lia.
  destruct (Z.leb_spec 0 (Z.log2 n - 1 - 52)); [lia|].
  destruct (Z.leb_spec 0 n); [|lia].
  replace (- (Z.log2 n - 1 - 52)) with (Z.succ (52 - Z.log2 n)) by lia.
  rewrite Z.pow_succ_r by lia.
  replace (n * (2 * 2 ^ (52 - Z.log2 n))) with (n * 2 ^ (52 - Z.log2 n) * 2) by lia.
  rewrite Z.div_mul, Z.mod_mul by lia. simpl (2 * 0 <? 2). cbv iota. done.
Qed.

(** A whole number below 2^52 comes back from [qRound64] as it is: adding
    the half is exact there. *)
Lemma qRound64_whole o : 0 ≤ o < 2 ^ 52 → qRound64 (inject_Z o) = o.
Proof.
  intros Ho. unfold qRound64. change (Qnum (inject_Z o)) with o.
  destruct (Z.leb_spec 0 o); [|lia].
  unfold fadd. change (inject_Z o + (1 # 2))%Q with ((o * 2 + 1 * 1) # 2)%Q.
  destruct (roundToDouble_halves (o * 2 + 1 * 1)) as (j & Hj & ->); [lia|].
  unfold to_qint64. change (Qnum (?a # _)) with a.
  assert (0 < 2 ^ j) as Hp by (apply Z.pow_pos_nonneg; lia).
  change (Z.pos (Qden (_ # ?b))) with (Z.pos b). rewrite Z2Pos.id by lia.
  rewrite Z.quot_div_nonneg by lia.
  rewrite Z.div_mul_cancel_r by lia.
  replace ((o * 2 + 1 * 1) / 2) with o by (apply Z.div_unique with 1; lia).
  unfold INT64_MIN, INT64_MAX.
  destruct (Z.leb_spec (- 2 ^ 63) o); [|lia]. destruct (Z.leb_spec o (2 ^ 63 - 1)); [done|lia].
Qed.

Lemma itemOf_entry line (s e o : Z) :
  subscript (toObject line) "start" = JDouble (inject_Z s) →
  subscript (toObject line) "end" = JDouble (inject_Z e) →
  subscript (toObject line) "offset" = JDouble (inject_Z o) →
  0 ≤ s ≤ INT_MAX → 0 ≤ e ≤ INT_MAX → 0 ≤ o < 2 ^ 52 →
  itemOf line
  = {| start := s; end_ := e; type := R_CODEMETA_TYPE_OFFSET; offset := o |}.
Proof.
  unfold INT_MAX. intros Hstart Hend Hoffset Hs He Ho.
  assert (∀ z, 0 ≤ z ≤ 2147483647 → to_size_t (toInt (JDouble (inject_Z z)) 0) = z) as Hint.
  { intros z Hz. unfold toInt, isWhole, wholePart, INT_MIN, INT_MAX, to_size_t. simpl.
    rewrite Z.mod_1_r, Z.div_1_r. simpl.
    destruct (Z.leb_spec (-2147483648) z); [|lia].
    destruct (Z.leb_spec z 2147483647); [|lia]. simpl.
    apply Z.mod_small. lia. }
  assert (fst (toULongLong (toVariant (JDouble (inject_Z o)))) = o) as Hoff.
  { change (fst (toULongLong (toVariant (JDouble (inject_Z o)))))
      with (to_qulonglong (qRound64 (inject_Z o))).
    rewrite qRound64_whole by done. apply Z.mod_small. lia. }
  unfold itemOf. rewrite Hstart, Hend, Hoffset. by rewrite !Hint, Hoff.
Qed.

(** C5, as the code has it.  The text of the translation is [code]
    followed by every string entry of [errors] and a line feed, up to the
    first zero byte of that text, because it is stored as a C string: all of
    it when it holds no zero byte.  The annotations are the entries of kind
    offset of [annotations], in order; the annotation of an entry has the
    entry's range when [start] and [end] are whole numbers from 0 to 2^31-1,
    and the entry's offset when that is a whole number below 2^52.  The answer
    with code ["int main(){}"], one offset entry (0, 3, 4096) and no error
    gives that text and exactly that annotation; empty code with the error
    ["bad syntax"] gives the text ["bad syntax"] and a line feed. *)
Theorem translate_answer json text line (s e o : Z) :
  (code (translate json)
   = Some (c_str (toString (subscript json "code")
                  +:+ errorText (toArray (subscript json "errors")))) ∧
   annotations (translate json)
   = List.map itemOf (List.filter isOffsetKind (toArray (subscript json "annotations")))) ∧
  (text = toString (subscript json "code") +:+ errorText (toArray (subscript json "errors")) →
   nulFree text = true → code (translate json) = Some text) ∧
  (subscript (toObject line) "start" = JDouble (inject_Z s) →
   subscript (toObject line) "end" = JDouble (inject_Z e) →
   subscript (toObject line) "offset" = JDouble (inject_Z o) →
   0 ≤ s ≤ INT_MAX → 0 ≤ e ≤ INT_MAX → 0 ≤ o < 2 ^ 52 →
   itemOf line
   = {| start := s; end_ := e; type := R_CODEMETA_TYPE_OFFSET; offset := o |}) ∧
  translate [("code", JString "int main(){}");
             ("annotations",
              JArray [JObject [("type", JString "offset"); ("start", JDouble (0 # 1));
                               ("end", JDouble (3 # 1)); ("offset", JDouble (4096 # 1))]]);
             ("errors", JArray [])]
  = {| code := Some "int main(){}";
       annotations := [{| start := 0; end_ := 3; type := R_CODEMETA_TYPE_OFFSET;
                          offset := 4096 |}] |} ∧
  translate [("code", JString ""); ("errors", JArray [JString "bad syntax"])]
  = {| code := Some ("bad syntax" +:+ LF); annotations := [] |}.
Proof.
  assert (code (translate json)
          = Some (c_str (toString (subscript json "code")
                         +:+ errorText (toArray (subscript json "errors"))))) as Hc.
  { unfold translate. simpl. by rewrite errors_loop. }
  split; [split; [exact Hc|]|].
  { unfold translate. simpl. by rewrite annotations_loop. }
  split.
  { intros -> Hn. rewrite Hc. by rewrite c_str_nulFree. }
  split; [apply itemOf_entry|].
  split; vm_compute; reflexivity.
Qed.

Lemma translate_answer_witness :
  code (translate [("code", JString "x = 1;"); ("errors", JArray [JString "bad syntax"])])
  = Some ("x = 1;" +:+ "bad syntax" +:+ LF) ∧
  itemOf (JObject [("type", JString "offset"); ("start", JDouble (inject_Z 0));
                   ("end", JDouble (inject_Z 3)); ("offset", JDouble (inject_Z 4096))])
  = {| start := 0; end_ := 3; type := R_CODEMETA_TYPE_OFFSET; offset := 4096 |}.
Proof.
  pose proof (translate_answer
                [("code", JString "x = 1;"); ("errors", JArray [JString "bad syntax"])]
                ("x = 1;" +:+ "bad syntax" +:+ LF)
                (JObject [("type", JString "offset"); ("start", JDouble (inject_Z 0));
                          ("end", JDouble (inject_Z 3)); ("offset", JDouble (inject_Z 4096))])
                0 3 4096) as W.
  split.
  - apply (proj1 (proj2 W)); vm_compute; reflexivity.
  - apply (proj1 (proj2 (proj2 W))); try reflexivity; unfold INT_MAX; lia.
Defined.

(** C5, as stated, fails.  The code of this answer holds a zero byte: the
    text stops there, and the error is not in it.  The range of its entry
    does not fit an [int] and is stored as (0, 0).  Its offset is above the
    largest [qint64], and the offset stored is another one. *)
Lemma translation_not_exact :
  let line := JObject [("type", JString "offset"); ("start", JDouble (2147483648 # 1));
                       ("end", JDouble (2147483651 # 1));
                       ("offset", JDouble (18446744071578845184 # 1))] in
  let json := [("code", JString (String "a" (String NUL "b")));
               ("annotations", JArray [line]);
               ("errors", JArray [JString "bad syntax"])] in
  isOffsetKind line = true ∧
  code (translate json) = Some "a" ∧
  ∃ mi, annotations (translate json) = [mi] ∧
        start mi = 0 ∧ end_ mi = 0 ∧ offset mi ≠ 18446744071578845184.
Proof.
  split; [reflexivity|]. split; [vm_compute; reflexivity|].
  eexists. split; [vm_compute; reflexivity|]. repeat split. discriminate.
Qed.

(** C4, as the code has it.  An entry of [annotations] is kept only if it
    is a non-empty object whose [type] reads ["offset"]; every other entry
    is dropped on its own, and the entries around it are translated as if it
    were not there.  An entry of that kind whose offset converts is kept
    whether or not it carries a [start] or an [end]: one that is missing is
    stored as 0. *)
Theorem annotation_kept_offset_kind line :
  (kept line = true →
   isEmpty (toObject line) = false ∧
   toString (subscript (toObject line) "type") = "offset") ∧
  (isOffsetKind line = true → offsetParses line = true →
   kept line = true ∧
   (∀ c, annotate c line = r_codemeta_add_annotation c (itemOf line)) ∧
   (carries line "start" = false → start (itemOf line) = 0) ∧
   (carries line "end" = false → end_ (itemOf line) = 0)) ∧
  (isOffsetKind line = false →
   kept line = false ∧
   ∀ pre post c, foldl annotate c (pre ++ line :: post) = foldl annotate c (pre ++ post)).
Proof.
  split; [|split].
  - intros H%kept_only_offset. split; [by apply isOffsetKind_nonempty|].
    by apply String.eqb_eq.
  - intros H _. split; [by apply kept_offset|].
    split; [intros c; by apply annotate_offset|].
    split; intros Hc; unfold itemOf; simpl;
      by rewrite (carries_false_subscript _ _ Hc).
  - intros H. split.
    + destruct (kept line) eqn:Hk; [|done]. apply kept_only_offset in Hk. congruence.
    + intros pre post c. by apply annotate_skip.
Qed.

Lemma annotation_kept_offset_kind_witness :
  kept (JObject [("type", JString "offset"); ("offset", JDouble (4096 # 1))]) = true ∧
  kept (JObject [("type", JString "comment"); ("start", JDouble (0 # 1))]) = false.
Proof.
  split.
  - apply (proj2 (annotation_kept_offset_kind
                    (JObject [("type", JString "offset"); ("offset", JDouble (4096 # 1))])));
      reflexivity.
  - apply (proj2 (proj2 (annotation_kept_offset_kind
                    (JObject [("type", JString "comment"); ("start", JDouble (0 # 1))]))));
      reflexivity.
Defined.

(** C4, as stated, fails: this entry of kind offset carries neither a
    [start] nor an [end], and it is kept. *)
Lemma annotation_without_range_kept :
  let line := JObject [("type", JString "offset"); ("offset", JDouble (4096 # 1))] in
  carries line "start" = false ∧ carries line "end" = false ∧
  kept line = true ∧
  annotations (annotate (r_codemeta_new None) line)
  = [{| start := 0; end_ := 0; type := R_CODEMETA_TYPE_OFFSET; offset := 4096 |}].
Proof. vm_compute. repeat split. Qed.



End DecompilerProofs.

(** * Properties of the plugin manager *)

Section ManagerProofs.
Import PluginManager.

Variable env : Env.
Implicit Types (s : Manager) (p : nat) (ps : list nat) (scans : list string).

(** ** Strings and paths, on examples *)

Example split_examples :
  split ":"%char "/opt/p::/opt/q:" = ["/opt/p"; "/opt/q"] ∧
  split ":"%char "" = [] ∧ split ";"%char "C:/a;C:/b" = ["C:/a"; "C:/b"].
Proof. repeat split. Qed.

Example module_name_examples :
  endsWith "m.py" ".py" = true ∧ chopped "m.py" 3 = "m" ∧
  endsWith "pkg" ".py" = false ∧ endsWith "py" ".py" = false ∧
  filePath "/usr/share/iaito" "plugins" = "/usr/share/iaito/plugins" ∧
  filePath "/" "plugins" = "/plugins".
Proof. repeat split. Qed.

(** ** Growth of the vector and of the log *)

Lemma grows_same s s' :
  plugins s' = plugins s → log s' = log s → grows env [] [] s s'.
Proof.
  intros Hp Hl. exists []. simpl. rewrite Hp, Hl, !app_nil_r. repeat split; by constructor.
Qed.

Lemma grows_refl s : grows env [] [] s s.
Proof. by apply grows_same. Qed.

Lemma grows_trans scans1 scans2 ps1 ps2 s1 s2 s3 :
  grows env scans1 ps1 s1 s2 → grows env scans2 ps2 s2 s3 →
  grows env (scans1 ++ scans2) (ps1 ++ ps2) s1 s3.
Proof.
  intros (b1 & Hp1 & Hl1 & Hf1 & Ha1 & Hs1) (b2 & Hp2 & Hl2 & Hf2 & Ha2 & Hs2).
  exists (b1 ++ b2). split; [|split; [|split; [|split]]].
  - by rewrite Hp2, Hp1, List.map_app, <- List.app_assoc.
  - by rewrite Hl2, Hl1, flat_map_app, <- List.app_assoc.
  - by apply Forall_app.
  - unfold activated in *. by rewrite omap_app, Ha1, Ha2.
  - by rewrite flat_map_app, omap_app, Hs1, Hs2.
Qed.

Lemma grows_step scans ps s1 s2 s3 :
  grows env [] [] s1 s2 → grows env scans ps s2 s3 → grows env scans ps s1 s3.
Proof. intros H1 H2. apply (grows_trans [] scans [] ps s1 s2 s3 H1 H2). Qed.

Lemma grows_then scans ps s1 s2 s3 :
  grows env scans ps s1 s2 → grows env [] [] s2 s3 → grows env scans ps s1 s3.
Proof.
  intros H1 H2. pose proof (grows_trans scans [] ps [] s1 s2 s3 H1 H2) as H.
  by rewrite !app_nil_r in H.
Qed.

Lemma grows_emit e s :
  isLifecycle e = false → scanOf e = None → grows env [] [] s (emit e s).
Proof.
  intros He Hs. exists [Note e]. simpl. rewrite Hs, app_nil_r.
  repeat split; by repeat constructor.
Qed.

Lemma grows_scan d s : grows env [d] [] s (emit (LoadedFrom d) s).
Proof.
  exists [Note (LoadedFrom d)]. simpl. rewrite app_nil_r.
  repeat split; by repeat constructor.
Qed.

Lemma grows_setup p s :
  satisfiesContract env p →
  grows env [] [p] s (push_back (Some p) (emit (SetupPlugin p) s)).
Proof.
  intros Hc. exists [Activation p]. simpl.
  split; [done|]. split; [by rewrite <- List.app_assoc|].
  split; [|done]. constructor; [done|constructor].
Qed.

(** The lifecycle events and the scans of a rendered log. *)
Lemma render_lifecycle (blocks : list Block) :
  Forall (okBlock env) blocks →
  List.filter isLifecycle (flat_map render blocks) = setupAndPush (activated blocks).
Proof.
  unfold setupAndPush, activated.
  induction blocks as [|[e|p] blocks IH]; intros Hb; [done| |].
  - apply Forall_cons in Hb as [He Hb]. simpl in *. rewrite He. by apply IH.
  - apply Forall_cons in Hb as [_ Hb]. simpl. by rewrite IH.
Qed.

Lemma render_contract (blocks : list Block) :
  Forall (okBlock env) blocks → Forall (satisfiesContract env) (activated blocks).
Proof.
  unfold activated. induction blocks as [|[e|p] blocks IH]; intros Hb; simpl.
  - constructor.
  - apply Forall_cons in Hb as [_ Hb]. by apply IH.
  - apply Forall_cons in Hb as [Hp Hb]. constructor; [done|by apply IH].
Qed.

Lemma grows_foldl {A} (f : Manager → A → Manager) (g : A → list string) (l : list A) s :
  (∀ s x, ∃ ps, grows env (g x) ps s (f s x)) →
  ∃ ps, grows env (flat_map g l) ps s (foldl f s l).
Proof.
  intros Hf. revert s. induction l as [|x l IH]; intros s; simpl.
  - exists []. apply grows_refl.
  - destruct (Hf s x) as [ps1 H1]. destruct (IH (f s x)) as [ps2 H2].
    exists (ps1 ++ ps2). by eapply grows_trans.
Qed.

Lemma grows_mkdir dir name s : grows env [] [] s (mkdir env dir name s).
Proof. unfold mkdir. destruct (mayCreate env _); by apply grows_same. Qed.

Lemma grows_mkpath dir name s : grows env [] [] s (mkpath env dir name s).
Proof. unfold mkpath. destruct (mayCreate env _); by apply grows_same. Qed.

(** The assertion of [loadPlugins] passes when the vector is empty, and in
    a build with [NDEBUG]. *)
Lemma assert_passes (expression : bool) :
  assert env expression = None ↔ NDEBUG env = false ∧ expression = false.
Proof.
  unfold assert. destruct (NDEBUG env), expression; simpl; split; try done;
    by intros [? ?].
Qed.

(** ** The loaders *)

Lemma loadNativePlugin_grows directory s fileName :
  ∃ ps, grows env [] ps s (loadNativePlugin env directory s fileName).
Proof.
  unfold loadNativePlugin.
  destruct (instance env _) as [plugin|] eqn:Hi.
  - destruct (qobject_cast plugin) as [p|] eqn:Hq.
    + exists [p]. apply grows_setup. left. eexists _, plugin. by split.
    + exists []. apply grows_refl.
  - exists []. destruct (negb _); [by apply grows_emit|apply grows_refl].
Qed.

Lemma loadNativePlugins_grows directory s :
  ∃ ps, grows env [] ps s (loadNativePlugins env directory s).
Proof.
  unfold loadNativePlugins.
  destruct (grows_foldl (loadNativePlugin env directory) (fun _ => [])
              (entryList_Files env (absolutePath env directory)) s
              (fun s x => loadNativePlugin_grows directory s x)) as [ps H].
  exists ps. revert H. generalize (entryList_Files env (absolutePath env directory)).
  intros l. replace (flat_map (fun _ : string => []) l) with (@nil string); [done|].
  induction l; simpl; done.
Qed.

(** What [loadPythonPlugin] returns depends on the module search path and
    the module name only; it pushes nothing and logs warnings only. *)
Lemma loadPythonPlugin_spec moduleName s :
  grows env [] [] s (snd (loadPythonPlugin env moduleName s)) ∧
  pythonPath (snd (loadPythonPlugin env moduleName s)) = pythonPath s ∧
  (∀ p, fst (loadPythonPlugin env moduleName s) = Some p → pythonOrigin env p).
Proof.
  unfold loadPythonPlugin.
  destruct (PyImport_ImportModule env (pythonPath s) moduleName) as [m|] eqn:Hm; simpl;
    [|split; [by apply grows_emit|done]].
  destruct (create_iaito_plugin m) as [f|] eqn:Hf; simpl;
    [|split; [by apply grows_emit|done]].
  destruct (callable f) eqn:Hc; simpl; [|split; [by apply grows_emit|done]].
  destruct (call f) as [obj|] eqn:Ho; simpl; [|split; [by apply grows_emit|done]].
  destruct (convertible obj) eqn:Hv; simpl; [|split; [by apply grows_emit|done]].
  destruct (cppPointer obj) as [q|] eqn:Hq; simpl; [|split; [by apply grows_emit|done]].
  split; [apply grows_refl|]. split; [done|].
  intros p [= <-]. by exists (pythonPath s), moduleName, m, f, obj.
Qed.

Lemma loadPythonEntry_grows s fileName :
  ∃ ps, grows env [] ps s (loadPythonEntry env s fileName).
Proof.
  unfold loadPythonEntry. destruct (String.eqb fileName "__pycache__").
  { exists []. apply grows_refl. }
  set (moduleName := if endsWith fileName ".py" then chopped fileName 3 else fileName).
  destruct (loadPythonPlugin_spec moduleName s) as (Hg & _ & Ho).
  destruct (loadPythonPlugin env moduleName s) as [[p|] s1]; simpl in *.
  - exists [p]. eapply grows_step; [exact Hg|]. apply grows_setup. right. by apply Ho.
  - by exists [].
Qed.

Lemma flat_map_nil {A B} (l : list A) : flat_map (fun _ : A => @nil B) l = [].
Proof. induction l; simpl; done. Qed.

Lemma loadPythonPlugins_grows directory s :
  ∃ ps, grows env [] ps s (loadPythonPlugins env directory s).
Proof.
  unfold loadPythonPlugins.
  destruct (grows_foldl (loadPythonEntry env) (fun _ => [])
              (entryList_DirsFiles env (absolutePath env directory))
              (addPythonPath (absolutePath env directory) s)
              loadPythonEntry_grows) as [ps H].
  rewrite flat_map_nil in H. exists ps.
  eapply grows_step; [|exact H]. by apply grows_same.
Qed.

Lemma loadPluginsFromDir_grows pluginsDir writable s :
  ∃ ps, grows env [absolutePath env pluginsDir] ps s
          (loadPluginsFromDir env pluginsDir writable s).
Proof.
  unfold loadPluginsFromDir.
  set (s0 := emit (LoadedFrom (absolutePath env pluginsDir)) s).
  assert (grows env [absolutePath env pluginsDir] [] s s0) as H0 by apply grows_scan.
  destruct (negb (exists_ env pluginsDir s0)); [by exists []|].
  set (s1 := if writable then mkdir env pluginsDir "native" s0 else s0).
  assert (grows env [] [] s0 s1) as H1.
  { unfold s1. destruct writable; [apply grows_mkdir|apply grows_refl]. }
  set (s2 := match cd env pluginsDir "native" s1 with
             | Some nativePluginsDir => loadNativePlugins env nativePluginsDir s1
             | None => s1
             end).
  assert (∃ ps, grows env [] ps s1 s2) as [ps2 H2].
  { unfold s2. destruct (cd env pluginsDir "native" s1).
    - apply loadNativePlugins_grows.
    - exists []. apply grows_refl. }
  match goal with |- context [emit (Loaded ?n) ?x] => set (s3 := x); set (n3 := n) end.
  assert (∃ ps, grows env [] ps s2 s3) as [ps3 H3].
  { unfold s3. destruct (IAITO_ENABLE_PYTHON_BINDINGS env); [|exists []; apply grows_refl].
    set (s2' := if writable then mkdir env pluginsDir "python" s2 else s2).
    assert (grows env [] [] s2 s2') as H2'.
    { unfold s2'. destruct writable; [apply grows_mkdir|apply grows_refl]. }
    destruct (cd env pluginsDir "python" s2') as [pythonPluginsDir|].
    - destruct (loadPythonPlugins_grows (absolutePath env pythonPluginsDir) s2') as [ps H].
      exists ps. by eapply grows_step.
    - by exists []. }
  exists (ps2 ++ ps3).
  eapply grows_then; [|by apply grows_emit].
  pose proof (grows_trans _ _ _ _ _ _ _ H2 H3) as H23.
  pose proof (grows_step _ _ _ _ _ H1 H23) as H13.
  pose proof (grows_trans _ _ _ _ _ _ _ H0 H13) as H. by simpl in H.
Qed.

Lemma getUserPluginsDirectory_grows s :
  grows env [] [] s (snd (getUserPluginsDirectory env s)).
Proof.
  unfold getUserPluginsDirectory. destruct (String.eqb _ _); [apply grows_refl|].
  destruct (cd env _ _ _); simpl; apply grows_mkpath.
Qed.

(** The directories [loadOtherDir] scans out of a list. *)
Lemma skip_user_scans user (l : list string) :
  flat_map (fun dir => if String.eqb (absolutePath env dir) user
                       then [] else [absolutePath env dir]) l
  = List.map (absolutePath env)
      (List.filter (fun dir => negb (String.eqb (absolutePath env dir) user)) l).
Proof.
  induction l as [|dir l IH]; simpl; [done|].
  destruct (String.eqb (absolutePath env dir) user); simpl; by rewrite IH.
Qed.

Lemma loadOtherDir_grows user s dir :
  ∃ ps, grows env (if String.eqb (absolutePath env dir) user
                   then [] else [absolutePath env dir]) ps s
          (loadOtherDir env user s dir).
Proof.
  unfold loadOtherDir. destruct (String.eqb (absolutePath env dir) user).
  - exists []. apply grows_refl.
  - apply loadPluginsFromDir_grows.
Qed.

Lemma getPluginDirectories_shape s :
  ∃ appimage,
    getPluginDirectories env s
    = List.map (fun location => filePath location "plugins") (standardLocations env)
      ++ appimage ++ split (listSeparator env) (IAITO_EXTRA_PLUGIN_DIRS env) ∧
    (APPIMAGE env = false → appimage = []) ∧
    (List.length appimage ≤ 1)%nat.
Proof.
  unfold getPluginDirectories. destruct (APPIMAGE env).
  - destruct (cd env _ "share/RadareOrg/Iaito/plugins" s) as [d|].
    + exists [d]. rewrite <- List.app_assoc. split; [done|]. split; [done|]. simpl. lia.
    + exists []. split; [done|]. split; [done|]. simpl. lia.
  - exists []. split; [done|]. split; [done|]. simpl. lia.
Qed.

(** What [loadPlugins] does when it is enabled, step by step. *)
Lemma loadPlugins_enabled s s' :
  loadPlugins env true s = Some s' →
  (NDEBUG env = false → plugins s = []) ∧
  let user := fst (getUserPluginsDirectory env s) in
  ∃ s2 ps,
    grows env
      ((if String.eqb user EmptyString then [] else [absolutePath env user])
       ++ List.map (absolutePath env)
            (List.filter (fun dir => negb (String.eqb (absolutePath env dir) user))
               (getPluginDirectories env s2)))
      ps s s'.
Proof.
  unfold loadPlugins.
  destruct (assert env (bool_decide (plugins s = []))) eqn:Hp; [|done]. simpl.
  pose proof (getUserPluginsDirectory_grows s) as Hu.
  destruct (getUserPluginsDirectory env s) as [user s1]. simpl in *.
  intros [= <-]. split.
  { intros Hn. destruct (decide (plugins s = [])) as [|He]; [done|].
    assert (assert env (bool_decide (plugins s = [])) = None) as Hf; [|congruence].
    apply assert_passes. by rewrite bool_decide_eq_false_2. }
  set (s2 := if negb (String.eqb user EmptyString)
             then loadPluginsFromDir env user true s1 else s1).
  assert (∃ ps, grows env (if String.eqb user EmptyString then []
                           else [absolutePath env user]) ps s1 s2) as [ps2 H2].
  { unfold s2. destruct (String.eqb user EmptyString); simpl.
    - exists []. apply grows_refl.
    - apply loadPluginsFromDir_grows. }
  destruct (grows_foldl (loadOtherDir env user)
              (fun dir => if String.eqb (absolutePath env dir) user
                          then [] else [absolutePath env dir])
              (getPluginDirectories env s2) s2 (loadOtherDir_grows user)) as [ps3 H3].
  rewrite skip_user_scans in H3.
  exists s2, (ps2 ++ ps3). eapply grows_step; [exact Hu|]. by eapply grows_trans.
Qed.

Lemma loadPlugins_grows enable s s' :
  loadPlugins env enable s = Some s' →
  ∃ scans ps, grows env scans ps s s'.
Proof.
  destruct enable.
  - intros H. destruct (loadPlugins_enabled s s' H) as [Hp (s2 & ps & Hg)]. eauto.
  - unfold loadPlugins. destruct (assert env _); [|done]. simpl. intros [= <-].
    exists [], []. apply grows_refl.
Qed.

(** After [loadPlugins] on a new manager, the vector and the lifecycle
    events are those of the pointers that were set up. *)
Lemma loaded_shape d0 enable s' :
  loadPlugins env enable (new d0) = Some s' →
  ∃ ps, plugins s' = List.map Some ps ∧ lifecycle s' = setupAndPush ps ∧
        Forall (satisfiesContract env) ps.
Proof.
  intros H.
  destruct (loadPlugins_grows _ _ _ H) as (scans & ps & blocks & Hp & Hl & Hb & Ha & _).
  exists ps. unfold lifecycle. rewrite Hp, Hl. simpl. subst ps.
  split; [done|]. split; [by apply render_lifecycle|by apply render_contract].
Qed.

(** After [loadPlugins] on a new manager, the log is made of messages and
    of activations, and the vector holds the activated pointers. *)
Lemma loaded_blocks d0 enable s' :
  loadPlugins env enable (new d0) = Some s' →
  ∃ blocks, log s' = flat_map render blocks ∧
            plugins s' = List.map Some (activated blocks) ∧
            Forall (okBlock env) blocks.
Proof.
  intros H.
  destruct (loadPlugins_grows _ _ _ H) as (scans & ps & blocks & Hp & Hl & Hb & Ha & _).
  exists blocks. subst ps. done.
Qed.

(** ** Managers that differ in warnings only *)

Lemma lifecycle_emit e s :
  lifecycle (emit e s) = lifecycle s ++ (if isLifecycle e then [e] else []).
Proof. unfold lifecycle. simpl. by rewrite List.filter_app. Qed.

Lemma similar_refl s : similar s s.
Proof. done. Qed.

Lemma similar_sym s s' : similar s s' → similar s' s.
Proof. intros (? & ? & ?). done. Qed.

Lemma similar_trans s1 s2 s3 : similar s1 s2 → similar s2 s3 → similar s1 s3.
Proof. intros (? & ? & ?) (? & ? & ?). repeat split; congruence. Qed.

Lemma similar_warning message subject s : similar (emit (Warning message subject) s) s.
Proof.
  repeat split; try done. rewrite lifecycle_emit. simpl. by rewrite app_nil_r.
Qed.

Lemma similar_setup p s s' :
  similar s s' →
  similar (push_back (Some p) (emit (SetupPlugin p) s))
          (push_back (Some p) (emit (SetupPlugin p) s')).
Proof.
  intros (Hp & Hy & Hl). unfold similar, lifecycle in *. simpl.
  rewrite !List.filter_app, Hp, Hy, Hl. done.
Qed.

(** The outcome of [loadPythonPlugin] is one of: a pointer, and the state
    is unchanged; no pointer, and one warning is logged. *)
Lemma loadPythonPlugin_cases moduleName s :
  (∃ p, loadPythonPlugin env moduleName s = (Some p, s)) ∨
  (∃ message subject,
     loadPythonPlugin env moduleName s = (None, emit (Warning message subject) s)).
Proof.
  unfold loadPythonPlugin.
  destruct (PyImport_ImportModule env (pythonPath s) moduleName) as [m|]; [|right; eauto].
  destruct (create_iaito_plugin m) as [f|]; [|right; eauto].
  destruct (callable f); simpl; [|right; eauto].
  destruct (call f) as [obj|]; [|right; eauto].
  destruct (convertible obj); simpl; [|right; eauto].
  destruct (cppPointer obj) as [q|]; [left; eauto|right; eauto].
Qed.

Lemma loadPythonPlugin_fst moduleName s s' :
  pythonPath s = pythonPath s' →
  fst (loadPythonPlugin env moduleName s) = fst (loadPythonPlugin env moduleName s').
Proof.
  intros Hy. unfold loadPythonPlugin. rewrite Hy.
  destruct (PyImport_ImportModule env (pythonPath s') moduleName) as [m|]; [|done].
  destruct (create_iaito_plugin m) as [f|]; [|done].
  destruct (callable f); simpl; [|done].
  destruct (call f) as [obj|]; [|done].
  destruct (convertible obj); simpl; [|done].
  by destruct (cppPointer obj).
Qed.

Lemma loadPythonPlugin_similar moduleName s :
  similar (snd (loadPythonPlugin env moduleName s)) s.
Proof.
  destruct (loadPythonPlugin_cases moduleName s) as [[p ->] | (message & subject & ->)]; simpl.
  - apply similar_refl.
  - apply similar_warning.
Qed.

Lemma loadPythonEntry_similar s s' fileName :
  similar s s' →
  similar (loadPythonEntry env s fileName) (loadPythonEntry env s' fileName).
Proof.
  intros H. unfold loadPythonEntry. destruct (String.eqb fileName "__pycache__"); [done|].
  set (moduleName := if endsWith fileName ".py" then chopped fileName 3 else fileName).
  pose proof (loadPythonPlugin_fst moduleName s s' (proj1 (proj2 H))) as Hf.
  pose proof (loadPythonPlugin_similar moduleName s) as H1.
  pose proof (loadPythonPlugin_similar moduleName s') as H2.
  destruct (loadPythonPlugin env moduleName s) as [r s1].
  destruct (loadPythonPlugin env moduleName s') as [r' s1']. simpl in *. subst r'.
  assert (similar s1 s1') as H12.
  { eapply similar_trans; [exact H1|]. eapply similar_trans; [exact H|].
    by apply similar_sym. }
  destruct r as [p|]; [by apply similar_setup|done].
Qed.

Lemma loadPythonEntries_similar (l : list string) s s' :
  similar s s' →
  similar (foldl (loadPythonEntry env) s l) (foldl (loadPythonEntry env) s' l).
Proof.
  revert s s'. induction l as [|x l IH]; intros s s' H; [done|].
  simpl. apply IH. by apply loadPythonEntry_similar.
Qed.

Lemma loadPythonEntry_pythonPath s fileName :
  pythonPath (loadPythonEntry env s fileName) = pythonPath s.
Proof.
  unfold loadPythonEntry. destruct (String.eqb fileName "__pycache__"); [done|].
  set (moduleName := if endsWith fileName ".py" then chopped fileName 3 else fileName).
  pose proof (loadPythonPlugin_similar moduleName s) as (_ & Hy & _).
  destruct (loadPythonPlugin env moduleName s) as [[p|] s1]; simpl in *; done.
Qed.

Lemma loadPythonEntries_pythonPath (l : list string) s :
  pythonPath (foldl (loadPythonEntry env) s l) = pythonPath s.
Proof.
  revert s. induction l as [|x l IH]; intros s; [done|].
  simpl. by rewrite IH, loadPythonEntry_pythonPath.
Qed.

(** An entry whose module gives no pointer leaves a similar manager. *)
Lemma loadPythonEntry_none s entry :
  fst (loadPythonPlugin env (if endsWith entry ".py" then chopped entry 3 else entry) s) = None →
  similar (loadPythonEntry env s entry) s.
Proof.
  intros Hn. unfold loadPythonEntry. destruct (String.eqb entry "__pycache__"); [done|].
  pose proof (loadPythonPlugin_similar
                (if endsWith entry ".py" then chopped entry 3 else entry) s) as H.
  destruct (loadPythonPlugin env _ s) as [r s1]. simpl in *. by subst r.
Qed.

(** ** Teardown *)

Lemma terminators_log (qs : list (option nat)) s :
  log (foldl (fun s q => match q with
                         | Some plugin => PluginTerminator s plugin
                         | None => s
                         end) s qs)
  = log s ++ terminateAndDelete qs.
Proof.
  revert s. unfold terminateAndDelete.
  induction qs as [|[p|] qs IH]; intros s; simpl.
  - by rewrite app_nil_r.
  - rewrite IH. simpl. by rewrite <- !List.app_assoc.
  - by rewrite IH.
Qed.


Lemma destroyPlugins_log s :
  log (destroyPlugins s) = log s ++ terminateAndDelete (plugins s).
Proof. unfold destroyPlugins. simpl. apply terminators_log. Qed.

Lemma destroyPlugins_empty s : plugins s = [] → destroyPlugins s = s.
Proof. destruct s as [ps ds py lg]. simpl. intros ->. done. Qed.




Lemma setupAndPush_elem e ps :
  e ∈ setupAndPush ps → ∃ p, p ∈ ps ∧ (e = SetupPlugin p ∨ e = PushBack p).
Proof.
  unfold setupAndPush. induction ps as [|p ps IH]; simpl.
  - by intros ?%elem_of_nil.
  - intros [->|[->|H]%elem_of_cons]%elem_of_cons.
    + exists p. split; [left|by left].
    + exists p. split; [left|by right].
    + destruct (IH H) as (q & Hq & He). exists q. split; [by right|done].
Qed.

Lemma lifecycle_elem e s : isLifecycle e = true → e ∈ log s → e ∈ lifecycle s.
Proof.
  intros He Hin. unfold lifecycle. apply list_elem_of_In, List.filter_In.
  split; [by apply list_elem_of_In|done].
Qed.

Lemma terminateAndDelete_elem e (qs : list (option nat)) :
  e ∈ terminateAndDelete qs → ∃ p, Some p ∈ qs ∧ (e = Terminate p ∨ e = Delete p).
Proof.
  unfold terminateAndDelete. induction qs as [|[p|] qs IH]; simpl.
  - by intros ?%elem_of_nil.
  - intros [->|[->|H]%elem_of_cons]%elem_of_cons.
    + exists p. split; [left|by left].
    + exists p. split; [left|by right].
    + destruct (IH H) as (q & Hq & He). exists q. split; [by right|done].
  - intros H. destruct (IH H) as (q & Hq & He). exists q. split; [by right|done].
Qed.


Lemma setupCalls_setupAndPush p ps :
  setupCalls p (setupAndPush ps) = occurrences p (List.map Some ps).
Proof.
  unfold setupCalls, occurrences, setupAndPush.
  induction ps as [|q ps IH]; simpl; [done|].
  destruct (q =? p)%nat; simpl; by rewrite IH.
Qed.

Lemma occurrences_absent p ps : p ∉ ps → occurrences p (List.map Some ps) = 0%nat.
Proof.
  unfold occurrences. induction ps as [|q ps IH]; intros Hn; simpl; [done|].
  apply not_elem_of_cons in Hn as [Hne Hn].
  destruct (Nat.eqb_spec q p); [congruence|]. by apply IH.
Qed.

Lemma occurrences_once p ps :
  NoDup ps → p ∈ ps → occurrences p (List.map Some ps) = 1%nat.
Proof.
  unfold occurrences. induction ps as [|q ps IH]; intros Hd Hin.
  - by apply elem_of_nil in Hin.
  - apply NoDup_cons in Hd as [Hq Hd]. simpl. destruct (Nat.eqb_spec q p) as [->|Hne].
    + simpl. f_equal. by apply (occurrences_absent p ps).
    + apply elem_of_cons in Hin as [->|Hin]; [done|]. by apply IH.
Qed.

Lemma setupCalls_lifecycle p (l : list Event) :
  setupCalls p (List.filter isLifecycle l) = setupCalls p l.
Proof.
  unfold setupCalls. induction l as [|e l IH]; simpl; [done|].
  destruct e; simpl; try done. destruct (plugin =? p)%nat; simpl; by rewrite IH.
Qed.

(** ** The claims about the manager *)

(** C6.  A module that does not satisfy the plugin contract leaves no trace
    in the plugins.  A native library whose root object fails the cast
    changes nothing at all, and the files after it are loaded as if it were
    not there.  A Python module whose object has no conversion to
    [IaitoPlugin] gives no pointer and logs a warning only: the vector, the
    calls of [setupPlugin] and, after teardown, the calls of [terminate] are
    those of a scan without it.  Whatever is in the vector after
    [loadPlugins] came from a module that satisfies the contract, and
    [setupPlugin] and [terminate] are called on members of the vector
    only. *)
Theorem module_without_contract_skipped directory fileName moduleName s :
  (nativeLacksContract env directory fileName →
   loadNativePlugin env directory s fileName = s ∧
   ∀ pre post s0,
     foldl (loadNativePlugin env directory) s0 (pre ++ fileName :: post)
     = foldl (loadNativePlugin env directory) s0 (pre ++ post)) ∧
  (pythonLacksContract env (pythonPath s) moduleName →
   fst (loadPythonPlugin env moduleName s) = None ∧
   similar (snd (loadPythonPlugin env moduleName s)) s ∧
   ∀ pre post entry,
     moduleName = (if endsWith entry ".py" then chopped entry 3 else entry) →
     similar (foldl (loadPythonEntry env) s (pre ++ entry :: post))
             (foldl (loadPythonEntry env) s (pre ++ post)) ∧
     lifecycle (destroyPlugins (foldl (loadPythonEntry env) s (pre ++ entry :: post)))
     = lifecycle (destroyPlugins (foldl (loadPythonEntry env) s (pre ++ post)))) ∧
  (∀ d0 enable s',
     loadPlugins env enable (new d0) = Some s' →
     Forall (fun q => ∃ p, q = Some p ∧ satisfiesContract env p) (plugins s') ∧
     ∀ p, SetupPlugin p ∈ log (destroyPlugins s') ∨ Terminate p ∈ log (destroyPlugins s') →
          Some p ∈ plugins s' ∧ satisfiesContract env p).
Proof.
  split; [|split].
  - intros (plugin & Hi & Hq).
    assert (∀ s0, loadNativePlugin env directory s0 fileName = s0) as Hid.
    { intros s0. unfold loadNativePlugin. by rewrite Hi, Hq. }
    split; [apply Hid|]. intros pre post s0. rewrite !foldl_app. simpl. by rewrite Hid.
  - intros (m & f & obj & Hm & Hf & Hc & Ho & Hv).
    assert (∀ s0, pythonPath s0 = pythonPath s →
                  fst (loadPythonPlugin env moduleName s0) = None) as Hnone.
    { intros s0 Hy. unfold loadPythonPlugin. rewrite Hy, Hm, Hf, Hc, Ho, Hv. done. }
    split; [by apply Hnone|]. split; [apply loadPythonPlugin_similar|].
    intros pre post entry ->.
    assert (similar (foldl (loadPythonEntry env) s (pre ++ entry :: post))
                    (foldl (loadPythonEntry env) s (pre ++ post))) as Hsim.
    { rewrite !foldl_app. simpl. apply loadPythonEntries_similar.
      apply loadPythonEntry_none, Hnone, loadPythonEntries_pythonPath. }
    split; [exact Hsim|]. destruct Hsim as (Hp & _ & Hl).
    unfold lifecycle in *. rewrite !destroyPlugins_log, !List.filter_app. congruence.
  - intros d0 enable s' H. destruct (loaded_shape d0 enable s' H) as (ps & Hp & Hl & Hc).
    assert (∀ p, Some p ∈ plugins s' → satisfiesContract env p) as Hmem.
    { intros p Hin. rewrite Hp in Hin. apply list_elem_of_In, List.in_map_iff in Hin.
      destruct Hin as (q & [= ->] & Hq). rewrite Forall_forall in Hc.
      by apply Hc, list_elem_of_In. }
    split.
    + apply Forall_forall. intros q Hq. rewrite Hp in Hq.
      apply list_elem_of_In, List.in_map_iff in Hq. destruct Hq as (p & <- & Hin).
      exists p. split; [done|]. apply Hmem. rewrite Hp.
      apply list_elem_of_In, List.in_map. done.
    + intros p Hev. rewrite destroyPlugins_log in Hev.
      assert (Some p ∈ plugins s') as Hin; [|by split; [|apply Hmem]].
      destruct Hev as [[Hev|Hev]%elem_of_app | [Hev|Hev]%elem_of_app].
      * apply (lifecycle_elem (SetupPlugin p) s' eq_refl) in Hev. rewrite Hl in Hev.
        destruct (setupAndPush_elem _ _ Hev) as (q & Hq & [[= ->]|[=]]).
        rewrite Hp. by apply list_elem_of_In, List.in_map, list_elem_of_In.
      * by destruct (terminateAndDelete_elem _ _ Hev) as (q & Hq & [[=]|[=]]).
      * apply (lifecycle_elem (Terminate p) s' eq_refl) in Hev. rewrite Hl in Hev.
        by destruct (setupAndPush_elem _ _ Hev) as (q & Hq & [[=]|[=]]).
      * by destruct (terminateAndDelete_elem _ _ Hev) as (q & Hq & [[= ->]|[=]]).
Qed.

(** C7, as the code has it.  The directories are scanned in this order: the
    user directory, when it resolves; then the standard locations, each with
    [plugins] appended; then the AppImage directory when there is one; then
    the parts of the list of extra directories, split at the separator.  Of
    the later ones, exactly those whose absolute path is the user directory
    are left out, so that the user directory is not scanned a second time;
    no other directory is compared with the ones before it. *)
Theorem scanned_roots d0 s' :
  loadPlugins env true (new d0) = Some s' →
  let user := fst (getUserPluginsDirectory env (new d0)) in
  ∃ appimage,
    (APPIMAGE env = false → appimage = []) ∧
    (List.length appimage ≤ 1)%nat ∧
    let later :=
      List.map (fun location => filePath location "plugins") (standardLocations env)
      ++ appimage ++ split (listSeparator env) (IAITO_EXTRA_PLUGIN_DIRS env) in
    scanned s'
    = (if String.eqb user EmptyString then [] else [absolutePath env user])
      ++ List.map (absolutePath env)
           (List.filter (fun dir => negb (String.eqb (absolutePath env dir) user)) later) ∧
    user ∉ List.map (absolutePath env)
             (List.filter (fun dir => negb (String.eqb (absolutePath env dir) user)) later).
Proof.
  intros H user.
  destruct (loadPlugins_enabled _ _ H) as [_ (s2 & ps & blocks & _ & Hl & _ & _ & Hs)].
  destruct (getPluginDirectories_shape s2) as (appimage & Hd & Ha & Hn).
  exists appimage. split; [done|]. split; [done|]. simpl. split.
  - unfold scanned. rewrite Hl. simpl. rewrite Hs. fold user. by rewrite Hd.
  - intros Hin%list_elem_of_In. apply List.in_map_iff in Hin.
    destruct Hin as (dir & Hdir & Hf). apply List.filter_In in Hf.
    destruct Hf as [_ Hf]. rewrite Hdir, String.eqb_refl in Hf. done.
Qed.


(** C9, as the code has it.  After [loadPlugins], every element of the
    vector is a non-null pointer, and every push comes right after a call of
    [setupPlugin] on the pointer pushed: the log is made of messages and of
    pairs, a call of [setupPlugin] and right after it the push of the same
    pointer, and the vector holds the pointers of these pairs in order.  So
    [setupPlugin] is called on a pointer as often as the pointer is in the
    vector: once, when no pointer is in the vector twice.  A Python object
    that converts to a null pointer is rejected by [loadPythonPlugin]: no
    pointer comes back, and the entry neither calls [setupPlugin] nor
    pushes. *)
Theorem active_plugins_set_up d0 enable s' :
  loadPlugins env enable (new d0) = Some s' →
  Forall (fun q => q ≠ None) (plugins s') ∧
  (∃ blocks, log s' = flat_map render blocks ∧
             plugins s' = List.map Some (activated blocks) ∧
             Forall (okBlock env) blocks) ∧
  (∃ ps, plugins s' = List.map Some ps ∧ lifecycle s' = setupAndPush ps) ∧
  (∀ p, setupCalls p (log s') = occurrences p (plugins s')) ∧
  (NoDup (plugins s') → ∀ p, Some p ∈ plugins s' → setupCalls p (log s') = 1%nat) ∧
  (∀ s moduleName,
     pythonConvertsToNull env (pythonPath s) moduleName →
     fst (loadPythonPlugin env moduleName s) = None ∧
     ∀ entry,
       moduleName = (if endsWith entry ".py" then chopped entry 3 else entry) →
       plugins (loadPythonEntry env s entry) = plugins s ∧
       lifecycle (loadPythonEntry env s entry) = lifecycle s).
Proof.
  intros H. destruct (loaded_shape d0 enable s' H) as (ps & Hp & Hl & Hc).
  assert (∀ p, setupCalls p (log s') = occurrences p (plugins s')) as Hcount.
  { intros p. rewrite <- setupCalls_lifecycle. fold (lifecycle s').
    by rewrite Hl, Hp, setupCalls_setupAndPush. }
  split; [|split; [|split; [|split; [|split]]]].
  - rewrite Hp. apply Forall_forall. intros q Hq%list_elem_of_In.
    apply List.in_map_iff in Hq. by destruct Hq as (p & <- & _).
  - by apply loaded_blocks with d0 enable.
  - by exists ps.
  - exact Hcount.
  - intros Hd p Hin. rewrite Hcount, Hp. rewrite Hp in Hd, Hin.
    apply occurrences_once.
    + by apply (NoDup_fmap_1 Some).
    + apply list_elem_of_In, List.in_map_iff in Hin.
      destruct Hin as (q & [= ->] & Hq). by apply list_elem_of_In.
  - intros s moduleName (m & f & obj & Hm & Hf & Hca & Ho & Hv & Hq).
    assert (fst (loadPythonPlugin env moduleName s) = None) as Hnone.
    { unfold loadPythonPlugin. by rewrite Hm, Hf, Hca, Ho, Hv, Hq. }
    split; [exact Hnone|]. intros entry ->.
    by destruct (loadPythonEntry_none s entry Hnone) as (? & _ & ?).
Qed.

End ManagerProofs.

(** ** The claims at the installation [twiceListed] *)

Section ManagerWitnesses.
Import PluginManager.

Lemma module_without_contract_skipped_witness :
  nativeLacksContract twiceListed "/opt/p/native" "b.so" ∧
  pythonLacksContract twiceListed [] "n" ∧
  loadNativePlugin twiceListed "/opt/p/native" (new twiceListedDirs) "b.so"
  = new twiceListedDirs ∧
  fst (loadPythonPlugin twiceListed "n" (new twiceListedDirs)) = None.
Proof.
  assert (nativeLacksContract twiceListed "/opt/p/native" "b.so") as Hn.
  { eexists. split; vm_compute; reflexivity. }
  assert (pythonLacksContract twiceListed [] "n") as Hp.
  { do 3 eexists. repeat split; vm_compute; reflexivity. }
  pose proof (module_without_contract_skipped twiceListed "/opt/p/native" "b.so" "n"
                (new twiceListedDirs)) as W.
  split; [exact Hn|]. split; [exact Hp|]. split.
  - exact (proj1 (proj1 W Hn)).
  - exact (proj1 (proj1 (proj2 W) Hp)).
Defined.

Lemma twiceListed_loads :
  ∃ s', loadPlugins twiceListed true (new twiceListedDirs) = Some s' ∧
        plugins s' = [Some 7%nat; Some 9%nat; Some 7%nat; Some 9%nat] ∧
        scanned s' = ["/home/u/.local/share/iaito/plugins"; "/usr/share/iaito/plugins";
                      "/opt/p"; "/opt/p"].
Proof. eexists. split; [vm_compute; reflexivity|]. split; vm_compute; reflexivity. Defined.

Lemma scanned_roots_witness :
  ∃ s', loadPlugins twiceListed true (new twiceListedDirs) = Some s' ∧
        "/home/u/.local/share/iaito/plugins"
        ∉ List.map (absolutePath twiceListed)
            (List.filter (fun dir => negb (String.eqb (absolutePath twiceListed dir)
                                             "/home/u/.local/share/iaito/plugins"))
               (List.map (fun location => filePath location "plugins")
                  (standardLocations twiceListed)
                ++ split (listSeparator twiceListed) (IAITO_EXTRA_PLUGIN_DIRS twiceListed))).
Proof.
  destruct twiceListed_loads as (s' & H & _). exists s'. split; [exact H|].
  destruct (scanned_roots twiceListed twiceListedDirs s' H) as (appimage & Ha & _ & _ & Hu).
  rewrite (Ha eq_refl) in Hu. exact Hu.
Defined.

(** C7, as stated, fails: [/opt/p] is named twice in the list of extra
    directories and is scanned twice. *)
Lemma extra_directory_scanned_twice :
  ∃ s', loadPlugins twiceListed true (new twiceListedDirs) = Some s' ∧
        scanned s' = ["/home/u/.local/share/iaito/plugins"; "/usr/share/iaito/plugins";
                      "/opt/p"; "/opt/p"] ∧
        ¬ NoDup (scanned s').
Proof.
  destruct twiceListed_loads as (s' & H & _ & Hs). exists s'.
  split; [exact H|]. split; [exact Hs|]. rewrite Hs.
  intros Hn. apply NoDup_cons in Hn as [_ Hn]. apply NoDup_cons in Hn as [_ Hn].
  apply NoDup_cons in Hn as [Hn _]. apply Hn. left.
Qed.


Lemma active_plugins_set_up_witness :
  ∃ s', loadPlugins twiceListed true (new twiceListedDirs) = Some s' ∧
        Forall (fun q => q ≠ None) (plugins s') ∧
        pythonConvertsToNull twiceListed [] "z" ∧
        fst (loadPythonPlugin twiceListed "z" (new twiceListedDirs)) = None.
Proof.
  destruct twiceListed_loads as (s' & H & _). exists s'.
  destruct (active_plugins_set_up twiceListed twiceListedDirs true s' H)
    as (Hf & _ & _ & _ & _ & Hz).
  assert (pythonConvertsToNull twiceListed [] "z") as Hnull.
  { do 3 eexists. repeat split; vm_compute; reflexivity. }
  split; [exact H|]. split; [exact Hf|]. split; [exact Hnull|].
  exact (proj1 (Hz (new twiceListedDirs) "z" Hnull)).
Defined.

(** C9, as stated, fails: [/opt/p] is scanned twice, the library [a.so]
    gives the same root object both times, and [setupPlugin] is called on
    that plugin twice. *)
Lemma plugin_set_up_twice :
  ∃ s', loadPlugins twiceListed true (new twiceListedDirs) = Some s' ∧
        instance twiceListed "/opt/p/native/a.so"
        = Some {| address := 7; isIaitoPlugin := true |} ∧
        Some 7%nat ∈ plugins s' ∧
        setupCalls 7 (log s') = 2%nat.
Proof.
  eexists. split; [vm_compute; reflexivity|]. split; [reflexivity|].
  split; [left|]. vm_compute. reflexivity.
Qed.

End ManagerWitnesses.

(** * Further properties of the decompiler backend task *)

Section DecompilerRuns.
Import Qt R2pdcCmdDecompiler.

Implicit Types (s : Decompiler) (consumer : Consumer) (doc : QJsonDocument).

(** ** Tasks and results *)

Lemma created_decompileAt_idle addr s :
  task s = None →
  created (decompileAt addr s) = created s ++ [fresh (dom (heap s))].
Proof.
  intros Ht. rewrite decompileAt_idle by done. unfold created. simpl.
  by rewrite omap_app.
Qed.

Lemma deletions_decompileAt addr s : deletions (decompileAt addr s) = deletions s.
Proof.
  unfold decompileAt. destruct (task s); [done|].
  unfold deletions. simpl. rewrite omap_app. simpl. by rewrite app_nil_r.
Qed.

Lemma balanced_new : balanced new.
Proof. done. Qed.

Lemma balanced_decompileAt addr s : balanced s → balanced (decompileAt addr s).
Proof.
  intros [Hc Hd]. unfold balanced.
  rewrite deletions_decompileAt, delivered_decompileAt. split; [|done].
  destruct (task s) as [t|] eqn:Ht.
  - by rewrite decompileAt_pending by (rewrite Ht; eauto).
  - rewrite created_decompileAt_idle by done. rewrite length_app. simpl.
    unfold pending in *. rewrite Ht in Hc. rewrite decompileAt_idle by done. simpl. lia.
Qed.

Lemma balanced_calls addrs s :
  balanced s → balanced (foldl (fun s addr => decompileAt addr s) s addrs).
Proof.
  revert s. induction addrs as [|a addrs IH]; intros s Hs; [done|].
  simpl. by apply IH, balanced_decompileAt.
Qed.

Lemma balanced_onTaskFinished consumer doc s :
  balanced s → balanced (onTaskFinished consumer doc s).
Proof.
  intros [Hc Hd]. unfold onTaskFinished. destruct (task s) as [t|] eqn:Ht; [|done].
  assert (∀ result, balanced (emit_finished consumer result (release t s))) as H.
  { intros result. unfold emit_finished. apply balanced_calls.
    unfold balanced, created, delivered, deletions, pending in *. simpl.
    rewrite Ht in Hc. rewrite !omap_app, !length_app. simpl. lia. }
  destruct (isEmpty (object doc)); apply H.
Qed.

Lemma balanced_run consumer acts s : balanced s → balanced (run consumer acts s).
Proof.
  unfold run. revert s. induction acts as [|a acts IH]; intros s Hs; [done|].
  simpl. apply IH. destruct a; simpl.
  - by apply balanced_decompileAt.
  - by apply balanced_onTaskFinished.
Qed.

Lemma onTaskFinished_pending consumer doc s t :
  task s = Some t →
  onTaskFinished consumer doc s = emit_finished consumer (resultOf doc) (release t s).
Proof.
  intros Ht. unfold onTaskFinished, resultOf. rewrite Ht.
  by destruct (isEmpty (object doc)).
Qed.

Lemma delivered_step consumer s a :
  (List.length (delivered (step consumer s a))
   ≤ List.length (delivered s) + List.length (completions [a]))%nat.
Proof.
  destruct a as [addr|doc]; simpl.
  - rewrite delivered_decompileAt. lia.
  - unfold onTaskFinished. destruct (task s) as [t|]; [|lia].
    destruct (isEmpty (object doc));
      rewrite delivered_emit, delivered_release, length_app; simpl; lia.
Qed.

Lemma delivered_run consumer acts s :
  (List.length (delivered (run consumer acts s))
   ≤ List.length (delivered s) + List.length (completions acts))%nat.
Proof.
  unfold run. revert s. induction acts as [|a acts IH]; intros s; simpl; [lia|].
  etrans; [apply IH|]. pose proof (delivered_step consumer s a) as H.
  unfold completions in *. simpl in *. destruct a; simpl in *; lia.
Qed.

(** X1.  Over every run of a decompiler object, every task that was created
    has delivered exactly one result, except the one that is pending; as
    many tasks were deleted as results were delivered; and there are never
    more results than answers from the backend. *)
Theorem results_match_tasks consumer acts :
  let r := run consumer acts new in
  List.length (created r) = (List.length (delivered r) + pending r)%nat ∧
  List.length (deletions r) = List.length (delivered r) ∧
  (List.length (delivered r) ≤ List.length (completions acts))%nat.
Proof.
  intros r. destruct (balanced_run consumer acts new balanced_new) as [Hc Hd].
  split; [done|]. split; [done|]. apply (delivered_run consumer acts new).
Qed.

(** ** Rounds *)

Lemma run_app consumer acts1 acts2 s :
  run consumer (acts1 ++ acts2) s = run consumer acts2 (run consumer acts1 s).
Proof. unfold run. apply foldl_app. Qed.

Lemma run_invokes_pending consumer addrs s :
  is_Some (task s) → run consumer (List.map Invoke addrs) s = s.
Proof.
  intros Hs. induction addrs as [|a addrs IH]; [done|].
  unfold run in *. simpl. by rewrite decompileAt_pending.
Qed.

(** One round on an idle object whose consumer makes no request from its
    handler. *)
Lemma run_round consumer a bs doc s :
  task s = None → heap s = ∅ → consumer (resultOf doc) = [] →
  let s' := run consumer (round (a, bs, doc)) s in
  task s' = None ∧ heap s' = ∅ ∧
  delivered s' = delivered s ++ [resultOf doc] ∧
  created s' = created s ++ [fresh (dom (heap s))].
Proof.
  intros Ht Hh Hc s'. subst s'. unfold round. cbn [fst snd].
  change (Invoke a :: List.map Invoke bs ++ [Complete doc])
    with ([Invoke a] ++ List.map Invoke bs ++ [Complete doc]).
  rewrite !run_app.
  assert (run consumer [Invoke a] s = decompileAt a s) as -> by done.
  rewrite run_invokes_pending by apply decompileAt_task.
  assert (run consumer [Complete doc] (decompileAt a s)
          = onTaskFinished consumer doc (decompileAt a s)) as -> by done.
  pose proof (decompileAt_idle a s Ht) as E.
  rewrite (onTaskFinished_pending consumer doc _ (fresh (dom (heap s))))
    by (by rewrite E).
  unfold emit_finished. rewrite Hc. simpl.
  split; [done|]. split.
  - rewrite E. simpl. rewrite Hh, delete_insert_eq. apply delete_empty.
  - unfold delivered, created. simpl. rewrite E. simpl.
    rewrite !omap_app. simpl. rewrite !app_nil_r. done.
Qed.

(** X2.  With a consumer that makes no request from its handler, a run made
    of rounds (a request, any number of requests while it is pending, the
    answer) delivers one result per round, in order, each the result of
    that round's answer; the requests made while a task was pending are
    lost, not queued: one task is created per round and the object is idle
    at the end. *)
Theorem one_result_per_round consumer rounds :
  (∀ result, consumer result = []) →
  let r := run consumer (flat_map round rounds) new in
  delivered r = List.map (fun x => resultOf (snd x)) rounds ∧
  List.length (created r) = List.length rounds ∧
  task r = None ∧ heap r = ∅.
Proof.
  intros Hc.
  cut (∀ s, task s = None → heap s = ∅ →
            let r := run consumer (flat_map round rounds) s in
            delivered r = delivered s ++ List.map (fun x => resultOf (snd x)) rounds ∧
            List.length (created r) = (List.length (created s) + List.length rounds)%nat ∧
            task r = None ∧ heap r = ∅).
  { intros H. apply (H new); done. }
  induction rounds as [|[[a bs] doc] rounds IH]; intros s Ht Hh.
  - simpl. rewrite app_nil_r. split; [done|]. split; [lia|done].
  - cbv zeta.
    change (flat_map round ((a, bs, doc) :: rounds))
      with (round (a, bs, doc) ++ flat_map round rounds).
    rewrite run_app.
    destruct (run_round consumer a bs doc s Ht Hh (Hc _)) as (Ht' & Hh' & Hd & Hcr).
    destruct (IH _ Ht' Hh') as (Hd2 & Hc2 & Ht2 & Hh2).
    split; [|split; [|done]].
    + rewrite Hd2, Hd. simpl. by rewrite <- List.app_assoc.
    + rewrite Hc2, Hcr, length_app. simpl. lia.
Qed.

Lemma one_result_per_round_witness :
  delivered (run (fun _ => [])
               (flat_map round [(4096, [7; 8], DocNull); (5, [], DocArray [])]) new)
  = [resultOf DocNull; resultOf (DocArray [])].
Proof.
  exact (proj1 (one_result_per_round (fun _ => [])
                  [(4096, [7; 8], DocNull); (5, [], DocArray [])] (fun _ => eq_refl))).
Defined.

(** X3.  With a consumer that makes a request from its handler at every
    result, the object stays busy: from a pending task on, every answer is
    delivered, in order, and a task is pending after each. *)
Theorem busy_consumer consumer docs s :
  (∀ result, consumer result ≠ []) → is_Some (task s) →
  let r := run consumer (List.map Complete docs) s in
  delivered r = delivered s ++ List.map resultOf docs ∧
  is_Some (task r) ∧
  List.length (created r) = (List.length (created s) + List.length docs)%nat.
Proof.
  intros Hc. revert s. induction docs as [|doc docs IH]; intros s Hs.
  - simpl. rewrite app_nil_r. split; [done|]. split; [done|lia].
  - simpl List.map. cbv zeta.
    change (Complete doc :: List.map Complete docs)
      with ([Complete doc] ++ List.map Complete docs).
    rewrite run_app.
    assert (run consumer [Complete doc] s = onTaskFinished consumer doc s) as -> by done.
    destruct Hs as [t Ht]. rewrite (onTaskFinished_pending consumer doc s t Ht).
    set (s1 := emit_finished consumer (resultOf doc) (release t s)).
    assert (is_Some (task s1) ∧ delivered s1 = delivered s ++ [resultOf doc] ∧
            List.length (created s1) = S (List.length (created s))) as (H1 & H2 & H3).
    { unfold s1. rewrite delivered_emit, delivered_release. unfold emit_finished.
      destruct (consumer (resultOf doc)) as [|a more] eqn:Hr; [by destruct (Hc _ Hr)|].
      rewrite calls_first. split; [apply decompileAt_task|]. split; [done|].
      rewrite created_decompileAt_idle by done. unfold created. simpl.
      rewrite !omap_app, !length_app. simpl. lia. }
    destruct (IH s1 H1) as (Hd & Hp & Hcr).
    split; [|split; [done|]].
    + rewrite Hd, H2. simpl. by rewrite <- List.app_assoc.
    + rewrite Hcr, H3. simpl. lia.
Qed.

Lemma busy_consumer_witness :
  delivered (run (fun _ => [5]) [Complete DocNull; Complete (DocArray [])] (decompileAt 4096 new))
  = [resultOf DocNull; resultOf (DocArray [])].
Proof.
  assert (is_Some (task (decompileAt 4096 new))) as H.
  { exists 0%nat. vm_compute. reflexivity. }
  exact (proj1 (busy_consumer (fun _ => [5]) [DocNull; DocArray []] (decompileAt 4096 new)
                  (fun _ => ltac:(discriminate)) H)).
Defined.

End DecompilerRuns.

(** * Further properties of the translation *)

Section TranslationFacts.
Import Qt R2pdcCmdDecompiler.

(** ** The members of the answer *)

Lemma subscript_absent (o : QJsonObject) key : key ∉ keys o → subscript o key = JNull.
Proof.
  unfold keys. induction o as [|[k v] o IH]; simpl; [done|].
  intros [Hk Ho]%not_elem_of_cons. destruct (String.eqb_spec k key); [congruence|].
  by apply IH.
Qed.

Lemma subscript_permutation (o o' : QJsonObject) key :
  o ≡ₚ o' → NoDup (keys o) → subscript o key = subscript o' key.
Proof.
  unfold keys. induction 1 as [|[k v] o o' Hp IH|[k1 v1] [k2 v2] o|o1 o2 o3 H12 IH12 H23 IH23];
    intros Hd; simpl in *.
  - done.
  - apply NoDup_cons in Hd as [_ Hd]. by rewrite IH.
  - apply NoDup_cons in Hd as [Hn _].
    destruct (String.eqb_spec k1 key) as [->|]; [|done].
    destruct (String.eqb_spec k2 key) as [->|]; [|done].
    destruct Hn. left.
  - rewrite IH12 by done. apply IH23.
    by rewrite <- (Permutation_map fst H12).
Qed.

(** X4.  The translation reads the members of the answer by name: two
    answers that have the same members, with distinct names, in any order,
    have the same translation. *)
Theorem translate_member_order (json json' : QJsonObject) :
  json ≡ₚ json' → NoDup (keys json) → translate json = translate json'.
Proof.
  intros Hp Hd. unfold translate.
  by rewrite !(subscript_permutation json json' _ Hp Hd).
Qed.

Lemma translate_member_order_witness :
  translate [("errors", JArray [JString "bad syntax"]); ("code", JString "x = 1;")]
  = translate [("code", JString "x = 1;"); ("errors", JArray [JString "bad syntax"])].
Proof.
  apply translate_member_order.
  - apply Permutation_swap.
  - apply (bool_decide_unpack _). vm_compute. reflexivity.
Defined.

(** X5.  A member that is missing or has the wrong type counts as empty:
    without a string [code] the text is the text of the errors, without an
    array [errors] it is the code, without an array [annotations] there is
    no annotation.  An object that has none of the three members gives a
    result with an empty text and no annotation; the text is never
    [NULL]. *)
Theorem translate_missing_members (json : QJsonObject) :
  code (translate json) ≠ None ∧
  ((∀ text, subscript json "code" ≠ JString text) →
   code (translate json) = Some (c_str (errorText (toArray (subscript json "errors"))))) ∧
  ((∀ a, subscript json "errors" ≠ JArray a) →
   code (translate json) = Some (c_str (toString (subscript json "code")))) ∧
  ((∀ a, subscript json "annotations" ≠ JArray a) → annotations (translate json) = []) ∧
  ("code" ∉ keys json → "annotations" ∉ keys json → "errors" ∉ keys json →
   translate json = {| code := Some ""; annotations := [] |}).
Proof.
  assert (∀ v, (∀ a, v ≠ JArray a) → toArray v = []) as Harr.
  { intros v Hv. destruct v; try done. by destruct (Hv a). }
  assert (code (translate json)
          = Some (c_str (toString (subscript json "code")
                         +:+ errorText (toArray (subscript json "errors"))))) as Hc.
  { unfold translate. simpl. by rewrite errors_loop. }
  assert (annotations (translate json)
          = List.map itemOf (List.filter isOffsetKind (toArray (subscript json "annotations"))))
    as Ha.
  { unfold translate. simpl. by rewrite annotations_loop. }
  split; [by rewrite Hc|]. split; [|split; [|split]].
  - intros Hn. rewrite Hc. destruct (subscript json "code"); try done. by destruct (Hn s).
  - intros Hn. rewrite Hc, (Harr _ Hn). unfold errorText. simpl. by rewrite append_empty_r.
  - intros Hn. by rewrite Ha, (Harr _ Hn).
  - intros H1 H2 H3. unfold translate.
    by rewrite !subscript_absent by done.
Qed.

Lemma translate_missing_members_witness :
  translate [("status", JString "ok")] = {| code := Some ""; annotations := [] |} ∧
  annotations (translate [("code", JString "x"); ("annotations", JString "none")]) = [].
Proof.
  split.
  - apply (proj2 (proj2 (proj2 (proj2 (translate_missing_members [("status", JString "ok")])))));
      apply (bool_decide_unpack _); vm_compute; reflexivity.
  - apply (proj1 (proj2 (proj2 (proj2 (translate_missing_members
             [("code", JString "x"); ("annotations", JString "none")]))))).
    intros a. discriminate.
Defined.

(** ** The numbers of an annotation *)

Lemma readDigits_nonneg text acc : 0 ≤ acc → 0 ≤ fst (readDigits text acc).
Proof.
  revert acc. induction text as [|c text IH]; intros acc Hacc; simpl; [done|].
  destruct (isDigit c) eqn:Hd; [|done]. apply IH.
  unfold isDigit in Hd. apply andb_true_iff in Hd as [H1%Nat.leb_le _]. lia.
Qed.

Lemma QString_toULongLong_range text :
  0 ≤ fst (QString_toULongLong text) ≤ UT64_MAX.
Proof.
  unfold QString_toULongLong, UT64_MAX.
  set (s2 := match skipSpaces text with String "+"%char rest => rest | _ => skipSpaces text end).
  destruct s2 as [|c rest]; [simpl; lia|].
  destruct (isDigit c); [|simpl; lia].
  pose proof (readDigits_nonneg (String c rest) 0 ltac:(lia)) as Hn.
  destruct (readDigits (String c rest) 0) as [n after]. simpl in Hn.
  destruct (allSpaces after); simpl; [|lia].
  destruct (Z.leb_spec n 18446744073709551615); simpl; lia.
Qed.

Lemma toULongLong_range v : 0 ≤ fst (toULongLong v) ≤ UT64_MAX.
Proof.
  destruct v; simpl; try (unfold UT64_MAX; lia).
  - destruct b; unfold UT64_MAX; lia.
  - unfold to_qulonglong, UT64_MAX.
    pose proof (Z.mod_pos_bound (qRound64 d) (2 ^ 64) ltac:(lia)). lia.
  - apply QString_toULongLong_range.
Qed.

Lemma itemOf_wellFormed line : wellFormedItem (itemOf line).
Proof.
  unfold wellFormedItem, itemOf, to_size_t. simpl.
  split; [done|]. split; [apply Z.mod_pos_bound; lia|].
  split; [apply Z.mod_pos_bound; lia|]. apply toULongLong_range.
Qed.

(** X6.  Whatever the answer holds, every annotation of the result is of
    type offset, its start and its end are within [size_t] and its offset is
    within [ut64]; and there are no more annotations than entries. *)
Theorem annotations_well_formed (json : QJsonObject) :
  Forall wellFormedItem (annotations (translate json)) ∧
  (List.length (annotations (translate json))
   ≤ List.length (toArray (subscript json "annotations")))%nat.
Proof.
  assert (annotations (translate json)
          = List.map itemOf (List.filter isOffsetKind (toArray (subscript json "annotations"))))
    as ->.
  { unfold translate. simpl. by rewrite annotations_loop. }
  split.
  - apply Forall_forall. intros mi Hin%list_elem_of_In. apply List.in_map_iff in Hin.
    destruct Hin as (line & <- & _). apply itemOf_wellFormed.
  - rewrite length_map. apply List.filter_length_le.
Qed.

(** X7.  The start of an entry of kind offset is an [int] stored in a
    [size_t]: a whole number from 0 to [INT_MAX] is stored as it is, and a
    negative whole number down to [INT_MIN] is stored as 2^64 plus that
    number, a start beyond every text. *)
Theorem start_of_negative_int line c d :
  isOffsetKind line = true →
  subscript (toObject line) "start" = JDouble d → isWhole d = true →
  ∃ mi, annotations (annotate c line) = annotations c ++ [mi] ∧
        (0 ≤ wholePart d ≤ INT_MAX → start mi = wholePart d) ∧
        (INT_MIN ≤ wholePart d < 0 →
         start mi = 2 ^ 64 + wholePart d ∧ 2 ^ 64 - 2 ^ 31 ≤ start mi).
Proof.
  intros Hk Hs Hw. exists (itemOf line). rewrite annotate_offset by done.
  split; [done|]. unfold itemOf. simpl. rewrite Hs. unfold toInt, to_size_t. rewrite Hw.
  unfold INT_MIN, INT_MAX. simpl andb. split; intros Hr.
  - destruct (Z.leb_spec (-2147483648) (wholePart d)); [|lia].
    destruct (Z.leb_spec (wholePart d) 2147483647); [|lia]. simpl.
    apply Z.mod_small. lia.
  - destruct (Z.leb_spec (-2147483648) (wholePart d)); [|lia].
    destruct (Z.leb_spec (wholePart d) 2147483647); [|lia]. simpl.
    assert (wholePart d mod 2 ^ 64 = 2 ^ 64 + wholePart d) as ->; [|lia].
    symmetry. apply (Z.mod_unique _ _ (-1)); lia.
Qed.

Lemma start_of_negative_int_witness :
  ∃ mi, annotations (annotate (r_codemeta_new None)
                       (JObject [("type", JString "offset"); ("start", JDouble (-1 # 1))]))
        = [mi] ∧ start mi = 2 ^ 64 + -1.
Proof.
  destruct (start_of_negative_int
              (JObject [("type", JString "offset"); ("start", JDouble (-1 # 1))])
              (r_codemeta_new None) (-1 # 1) eq_refl eq_refl eq_refl) as (mi & Ha & _ & Hn).
  exists mi. split; [exact Ha|]. apply Hn. vm_compute. split; [discriminate|reflexivity].
Defined.

(** ** Zero bytes *)

Lemma c_str_cut (before after : string) :
  nulFree before = true → c_str (before +:+ String NUL after) = before.
Proof.
  induction before as [|c before IH]; [reflexivity|]. rewrite append_cons. simpl.
  destruct (nat_of_ascii c =? 0)%nat; simpl; [done|]. intros H. by rewrite IH.
Qed.

(** X8.  The text of the result is a C string: when the code of the answer
    holds a zero byte, the text ends before it, and what follows it, the
    texts of the errors included, is lost. *)
Theorem text_ends_at_zero_byte (json : QJsonObject) (before after : string) :
  toString (subscript json "code") = before +:+ String NUL after →
  nulFree before = true →
  code (translate json) = Some before.
Proof.
  intros Hc Hn. unfold translate. simpl.
  rewrite errors_loop, Hc, append_assoc, append_cons. by rewrite c_str_cut.
Qed.

Lemma text_ends_at_zero_byte_witness :
  code (translate [("code", JString ("int x;" +:+ String NUL "int y;"));
                   ("errors", JArray [JString "bad syntax"])])
  = Some "int x;".
Proof. apply (text_ends_at_zero_byte _ "int x;" "int y;"); reflexivity. Defined.

(** ** The command of a task *)

Lemma pretty_N_char_digit (x : N) :
  (x < 10)%N →
  isDigit (pretty_N_char x) = true ∧
  Z.of_nat (nat_of_ascii (pretty_N_char x)) - 48 = Z.of_N x.
Proof.
  intros Hx. destruct x as [|q]; [done|].
  do 4 (try destruct q as [q|q|]); try done; lia.
Qed.

(** Reading the digits that [pretty] writes in front of a text. *)
Lemma readDigits_pretty_N_go (x : N) (text : string) :
  ∃ k : Z, 0 ≤ k ∧
    ∀ acc, readDigits (pretty_N_go x text) acc = readDigits text (acc * 10 ^ k + Z.of_N x).
Proof.
  revert text. induction (N.lt_wf_0 x) as [x _ IH]; intros text.
  destruct (decide (x = 0)%N) as [->|Hx].
  - exists 0. split; [done|]. intros acc. rewrite pretty_N_go_0. f_equal. lia.
  - rewrite pretty_N_go_step by lia.
    destruct (IH (x `div` 10)%N ltac:(apply N.div_lt; lia)
                 (String (pretty_N_char (x `mod` 10)) text)) as (k & Hk & Hread).
    exists (k + 1). split; [lia|]. intros acc. rewrite Hread. simpl.
    destruct (pretty_N_char_digit (x `mod` 10)%N ltac:(apply N.mod_lt; lia)) as [-> ->].
    f_equal. rewrite N2Z.inj_div, N2Z.inj_mod, Z.pow_add_r by lia.
    change (Z.of_N 10) with 10. change (10 ^ 1) with 10.
    pose proof (Z.div_mod (Z.of_N x) 10 ltac:(lia)) as H.
    revert H. generalize (Z.of_N x / 10) (Z.of_N x mod 10) (10 ^ k) (Z.of_N x).
    intros. lia.
Qed.

Lemma pretty_N_go_head (x : N) (text : string) :
  (0 < x)%N → ∃ c rest, pretty_N_go x text = String c rest ∧ isDigit c = true.
Proof.
  revert text. induction (N.lt_wf_0 x) as [x _ IH]; intros text Hx.
  rewrite pretty_N_go_step by done.
  destruct (decide (x `div` 10 = 0)%N) as [->|Hd].
  - rewrite pretty_N_go_0. eexists _, _. split; [done|].
    apply pretty_N_char_digit, N.mod_lt. lia.
  - apply IH; [apply N.div_lt; lia|]. by apply N.neq_0_lt_0.
Qed.

Lemma QString_toULongLong_digits (c : ascii) (rest : string) (n : Z) :
  isDigit c = true → readDigits (String c rest) 0 = (n, EmptyString) → n ≤ UT64_MAX →
  QString_toULongLong (String c rest) = (n, true).
Proof.
  intros Hd Hr Hn. unfold QString_toULongLong.
  assert (isSpace c = false ∧ c ≠ "+"%char) as [Hs Hp].
  { unfold isDigit, isSpace in *. apply andb_true_iff in Hd as [H1%Nat.leb_le H2%Nat.leb_le].
    split.
    - apply orb_false_iff. split.
      + apply andb_false_iff. right. apply Nat.leb_gt. lia.
      + apply Nat.eqb_neq. lia.
    - intros ->. vm_compute in H1. lia. }
  assert (skipSpaces (String c rest) = String c rest) as -> by (simpl; by rewrite Hs).
  assert (match String c rest with
          | String "+"%char r => r
          | _ => String c rest
          end = String c rest) as ->.
  { destruct c as [[] [] [] [] [] [] [] []]; try done. }
  rewrite Hd, Hr. simpl. by destruct (Z.leb_spec n UT64_MAX); [|lia].
Qed.

Lemma QString_number_read (addr : Z) :
  QString_toULongLong (QString_number addr) = (addr mod 2 ^ 64, true).
Proof.
  unfold QString_number, to_qulonglong.
  pose proof (Z.mod_pos_bound addr (2 ^ 64) ltac:(lia)) as Hb.
  destruct (addr mod 2 ^ 64) as [|q|q] eqn:Hm; [done| |lia].
  change (pretty (Z.pos q)) with (pretty (N.pos q)).
  unfold pretty, pretty_N. destruct (decide (N.pos q = 0%N)); [done|].
  destruct (pretty_N_go_head (N.pos q) EmptyString ltac:(lia)) as (c & rest & Hg & Hd).
  destruct (readDigits_pretty_N_go (N.pos q) EmptyString) as (k & _ & Hr).
  rewrite Hg in *. apply QString_toULongLong_digits; [done| |unfold UT64_MAX; lia].
  rewrite Hr. simpl. done.
Qed.

(** X9.  The command of a new task is [pdcj @ ] and the address in decimal
    digits; the digits read back as the address (modulo 2^64, the width of
    [RVA]), so that two requests have the same command only for the same
    address. *)
Theorem command_names_address (addr : RVA) (s : Decompiler) :
  task s = None →
  ∃ t digits,
    task (decompileAt addr s) = Some t ∧
    heap (decompileAt addr s) !! t
    = Some {| cmd := "pdcj @ " +:+ digits; started := true |} ∧
    QString_toULongLong digits = (addr mod 2 ^ 64, true) ∧
    ∀ addr', "pdcj @ " +:+ QString_number addr' = "pdcj @ " +:+ digits →
             addr' mod 2 ^ 64 = addr mod 2 ^ 64.
Proof.
  intros Ht. exists (fresh (dom (heap s))), (QString_number addr).
  rewrite decompileAt_idle by done. simpl.
  split; [done|]. split; [apply lookup_insert_eq|]. split; [apply QString_number_read|].
  intros addr' Hc. apply String.app_inj in Hc.
  pose proof (QString_number_read addr') as H1.
  pose proof (QString_number_read addr) as H2. congruence.
Qed.

Lemma command_names_address_witness :
  ∃ t digits,
    heap (decompileAt 4096 new) !! t
    = Some {| cmd := "pdcj @ " +:+ digits; started := true |} ∧
    QString_toULongLong digits = (4096, true).
Proof.
  destruct (command_names_address 4096 new eq_refl) as (t & digits & _ & Hh & Hr & _).
  exists t, digits. split; [exact Hh|exact Hr].
Defined.

End TranslationFacts.

(** * Properties of the strings of IaitoCommon.h *)

Section AddressStrings.
Import IaitoCommon.

Lemma length_append (a b : string) :
  String.length (a +:+ b) = (String.length a + String.length b)%nat.
Proof. induction a as [|c a IH]; [done|]. rewrite append_cons. simpl. by rewrite IH. Qed.

Lemma length_fill c n : String.length (fill c n) = n.
Proof. induction n as [|n IH]; simpl; [done|]. by rewrite IH. Qed.

Lemma hexValue_hexDigit d : 0 ≤ d < 16 → hexValue (hexDigit d) = Some d.
Proof.
  intros Hd. destruct d as [|q|q]; [done| |lia].
  do 4 (try destruct q as [q|q|]); try done; lia.
Qed.

Lemma hexDigit_zero d : 0 < d < 16 → hexDigit d ≠ "0"%char.
Proof.
  intros Hd. destruct d as [|q|q]; [lia| |lia].
  do 4 (try destruct q as [q|q|]); try done; lia.
Qed.

Lemma qulltoa_zero fuel acc : qulltoa fuel 0 acc = acc.
Proof. by destruct fuel. Qed.

(** The digits are all written when the fuel covers the number, and they
    read back as the number. *)
Lemma readHex_qulltoa fuel l acc :
  0 ≤ l < 16 ^ Z.of_nat fuel →
  ∃ k, 0 ≤ k ∧ ∀ v, readHex (qulltoa fuel l acc) v = readHex acc (v * 16 ^ k + l).
Proof.
  revert l acc. induction fuel as [|fuel IH]; intros l acc Hl.
  - exists 0. split; [done|]. intros v. simpl. f_equal. change (16 ^ Z.of_nat 0) with 1 in Hl. lia.
  - simpl qulltoa. destruct (Z.eqb_spec l 0) as [->|Hne].
    + exists 0. split; [done|]. intros v. f_equal. lia.
    + rewrite Nat2Z.inj_succ, Z.pow_succ_r in Hl by lia.
      destruct (IH (l / 16) (String (hexDigit (l mod 16)) acc)) as (k & Hk & Hread).
      { split; [apply Z.div_pos; lia|]. apply Z.div_lt_upper_bound; lia. }
      exists (k + 1). split; [lia|]. intros v. rewrite Hread. simpl.
      rewrite hexValue_hexDigit by (apply Z.mod_pos_bound; lia).
      f_equal. rewrite Z.pow_add_r by lia. change (16 ^ 1) with 16.
      pose proof (Z.div_mod l 16 ltac:(lia)) as H.
      revert H. generalize (l / 16) (l mod 16) (16 ^ k). intros. lia.
Qed.

Lemma length_qulltoa_le fuel l acc (k : nat) :
  0 ≤ l < 16 ^ Z.of_nat k →
  (String.length (qulltoa fuel l acc) ≤ k + String.length acc)%nat.
Proof.
  revert l acc k. induction fuel as [|fuel IH]; intros l acc k Hl; simpl; [lia|].
  destruct (Z.eqb_spec l 0) as [->|Hne]; [lia|].
  destruct k as [|k]; [change (16 ^ Z.of_nat 0) with 1 in Hl; lia|].
  rewrite Nat2Z.inj_succ, Z.pow_succ_r in Hl by lia.
  etrans; [apply (IH _ _ k)|simpl; lia].
  split; [apply Z.div_pos; lia|]. apply Z.div_lt_upper_bound; lia.
Qed.

Lemma length_qulltoa_acc fuel l acc :
  (String.length acc ≤ String.length (qulltoa fuel l acc))%nat.
Proof.
  revert l acc. induction fuel as [|fuel IH]; intros l acc; simpl; [lia|].
  destruct (l =? 0); [lia|]. etrans; [|apply IH]. simpl. lia.
Qed.

Lemma length_qulltoa_ge fuel l acc (k : nat) :
  16 ^ Z.of_nat k ≤ l → (k < fuel)%nat →
  (k + 1 + String.length acc ≤ String.length (qulltoa fuel l acc))%nat.
Proof.
  revert l acc k. induction fuel as [|fuel IH]; intros l acc k Hl Hk; [lia|]. simpl.
  assert (0 < 16 ^ Z.of_nat k) by (apply Z.pow_pos_nonneg; lia).
  destruct (Z.eqb_spec l 0) as [->|Hne]; [lia|].
  destruct k as [|k].
  - etrans; [|apply length_qulltoa_acc]. simpl. lia.
  - rewrite Nat2Z.inj_succ, Z.pow_succ_r in Hl by lia.
    etrans; [|apply (IH _ _ k); [|lia]]; [simpl; lia|].
    apply Z.div_le_lower_bound; lia.
Qed.

Lemma qulltoa_head fuel l acc :
  0 < l < 16 ^ Z.of_nat fuel →
  ∃ c rest, qulltoa fuel l acc = String c rest ∧ c ≠ "0"%char.
Proof.
  revert l acc. induction fuel as [|fuel IH]; intros l acc Hl.
  - change (16 ^ Z.of_nat 0) with 1 in Hl. lia.
  - simpl. destruct (Z.eqb_spec l 0) as [->|Hne]; [lia|].
    rewrite Nat2Z.inj_succ, Z.pow_succ_r in Hl by lia.
    destruct (Z.eqb_spec (l / 16) 0) as [Hz|Hnz].
    + rewrite Hz, qulltoa_zero. eexists _, _. split; [done|].
      apply hexDigit_zero. pose proof (Z.div_mod l 16 ltac:(lia)).
      pose proof (Z.mod_pos_bound l 16 ltac:(lia)). lia.
    + apply IH. pose proof (Z.div_pos l 16 ltac:(lia) ltac:(lia)).
      split; [lia|]. apply Z.div_lt_upper_bound; lia.
Qed.

Lemma readHex_zeros n text v : v = 0 → readHex (fill "0" n +:+ text) v = readHex text 0.
Proof.
  intros ->. induction n as [|n IH]; [done|]. simpl fill. rewrite append_cons. simpl.
  exact IH.
Qed.

(** The digits [asprintf_llx] starts from. *)
Lemma digits_facts (l : Z) :
  0 ≤ l < 2 ^ 64 →
  let num_str := if l =? 0 then "0" else qulltoa 16 l EmptyString in
  readHex num_str 0 = Some l ∧
  (1 ≤ String.length num_str ≤ 16)%nat ∧
  (∀ k : nat, l < 16 ^ Z.of_nat k → (0 < k)%nat → (String.length num_str ≤ k)%nat) ∧
  (∀ k : nat, 16 ^ Z.of_nat k ≤ l → (k < 16)%nat → (k + 1 ≤ String.length num_str)%nat) ∧
  (l ≠ 0 → ∃ c rest, num_str = String c rest ∧ c ≠ "0"%char).
Proof.
  intros Hl. change (2 ^ 64) with (16 ^ Z.of_nat 16) in Hl.
  cbv zeta. destruct (Z.eqb_spec l 0) as [->|Hne].
  - split; [done|]. split; [simpl; lia|]. split; [intros; simpl; lia|]. split; [|done].
    intros k Hk. assert (0 < 16 ^ Z.of_nat k) by (apply Z.pow_pos_nonneg; lia). lia.
  - destruct (readHex_qulltoa 16 l EmptyString Hl) as (k & _ & Hr).
    pose proof (length_qulltoa_le 16 l EmptyString 16 Hl) as Hle.
    pose proof (length_qulltoa_ge 16 l EmptyString 0 ltac:(simpl; lia) ltac:(lia)) as Hge.
    split; [by rewrite Hr|]. split; [simpl in *; lia|]. split; [|split].
    + intros j Hj _. pose proof (length_qulltoa_le 16 l EmptyString j ltac:(lia)).
      simpl in *. lia.
    + intros j Hj Hj16. pose proof (length_qulltoa_ge 16 l EmptyString j Hj Hj16).
      simpl in *. lia.
    + intros _. apply qulltoa_head. lia.
Qed.

(** X10.  [RAddressString] writes [0x] and the hexadecimal digits of the
    address, filled with zeros to eight digits: the text has ten characters
    for an address below 2^32 and more above, and it reads back as the
    address (modulo 2^64), so that different addresses have different
    texts. *)
Theorem RAddressString_reads_back (addr : Z) :
  fromHexString (RAddressString addr) = Some (addr mod 2 ^ 64) ∧
  (addr mod 2 ^ 64 < 2 ^ 32 → String.length (RAddressString addr) = 10%nat) ∧
  (2 ^ 32 ≤ addr mod 2 ^ 64 → (10 < String.length (RAddressString addr) ≤ 18)%nat) ∧
  (∀ addr', RAddressString addr' = RAddressString addr →
            addr' mod 2 ^ 64 = addr mod 2 ^ 64).
Proof.
  assert (∀ a, fromHexString (RAddressString a) = Some (a mod 2 ^ 64) ∧
               (a mod 2 ^ 64 < 2 ^ 32 → String.length (RAddressString a) = 10%nat) ∧
               (2 ^ 32 ≤ a mod 2 ^ 64 → (10 < String.length (RAddressString a) ≤ 18)%nat))
    as H.
  { intros a. unfold RAddressString, asprintf_llx.
    pose proof (Z.mod_pos_bound a (2 ^ 64) ltac:(lia)) as Hb.
    destruct (digits_facts (a mod 2 ^ 64) Hb) as (Hr & Hlen & Hle & Hge & _).
    set (num_str := if a mod 2 ^ 64 =? 0 then "0" else qulltoa 16 (a mod 2 ^ 64) EmptyString)
      in *.
    set (padded := fill "0" (10 - String.length num_str - 2) +:+ num_str).
    assert (String.length ("0x" +:+ padded)
            = (2 + (10 - String.length num_str - 2) + String.length num_str)%nat) as Hlp.
    { unfold padded. rewrite !length_append, length_fill. simpl. lia. }
    assert (fill " " (10 - String.length ("0x" +:+ padded)) = EmptyString) as ->.
    { replace (10 - String.length ("0x" +:+ padded))%nat with 0%nat by lia. done. }
    change (EmptyString +:+ ("0x" +:+ padded)) with ("0x" +:+ padded).
    split; [|split].
    - change ("0x" +:+ padded) with (String "0" (String "x" padded)).
      unfold fromHexString.
      assert (padded ≠ EmptyString) as Hne.
      { intros He. apply (f_equal String.length) in He. unfold padded in He.
        rewrite length_append in He. simpl in He. lia. }
      destruct padded eqn:Hp; [done|]. rewrite <- Hp. unfold padded.
      by rewrite readHex_zeros.
    - intros Hs. rewrite Hlp.
      pose proof (Hle 8%nat ltac:(change (16 ^ Z.of_nat 8) with (2 ^ 32); lia) ltac:(lia)).
      lia.
    - intros Hs. rewrite Hlp.
      pose proof (Hge 8%nat ltac:(change (16 ^ Z.of_nat 8) with (2 ^ 32); lia) ltac:(lia)).
      lia. }
  destruct (H addr) as (H1 & H2 & H3). repeat split; try done; try (by apply H3).
  intros addr' He. destruct (H addr') as (H1' & _). rewrite He, H1 in H1'. congruence.
Qed.

Lemma RAddressString_reads_back_witness :
  String.length (RAddressString 4096) = 10%nat ∧
  (10 < String.length (RAddressString (-1)))%nat.
Proof.
  split.
  - apply (proj1 (proj2 (RAddressString_reads_back 4096))). vm_compute. reflexivity.
  - apply (proj1 (proj2 (proj2 (RAddressString_reads_back (-1))))). vm_compute. discriminate.
Defined.

(** X11.  [RSizeString] and [RHexString] write the same text: [0x] and the
    hexadecimal digits of the number without a leading zero, [0x0] for
    zero; the text reads back as the number (modulo 2^64). *)
Theorem RSizeString_reads_back (size : Z) :
  RHexString size = RSizeString size ∧
  fromHexString (RSizeString size) = Some (size mod 2 ^ 64) ∧
  (size mod 2 ^ 64 = 0 → RSizeString size = "0x0") ∧
  (size mod 2 ^ 64 ≠ 0 →
   ∃ c rest, RSizeString size = "0x" +:+ String c rest ∧ c ≠ "0"%char) ∧
  (3 ≤ String.length (RSizeString size) ≤ 18)%nat.
Proof.
  split; [done|]. unfold RSizeString, asprintf_llx.
  pose proof (Z.mod_pos_bound size (2 ^ 64) ltac:(lia)) as Hb.
  destruct (digits_facts (size mod 2 ^ 64) Hb) as (Hr & Hlen & _ & _ & Hhead).
  set (num_str := if size mod 2 ^ 64 =? 0 then "0" else qulltoa 16 (size mod 2 ^ 64) EmptyString)
    in *.
  change (fill " " (0 - String.length ("0x" +:+ num_str)) +:+ ("0x" +:+ num_str))
    with (String "0" (String "x" num_str)).
  split; [|split; [|split]].
  - unfold fromHexString. destruct num_str eqn:Hn; [simpl in Hlen; lia|]. done.
  - intros Hz. unfold num_str. by rewrite Hz.
  - intros Hnz. destruct (Hhead Hnz) as (c & rest & -> & Hc). by exists c, rest.
  - simpl. lia.
Qed.

Lemma RSizeString_reads_back_witness :
  RSizeString 18446744073709551616 = "0x0" ∧
  ∃ c rest, RSizeString 255 = "0x" +:+ String c rest ∧ c ≠ "0"%char.
Proof.
  split.
  - apply (proj1 (proj2 (proj2 (RSizeString_reads_back 18446744073709551616)))).
    vm_compute. reflexivity.
  - apply (proj1 (proj2 (proj2 (proj2 (RSizeString_reads_back 255))))).
    vm_compute. discriminate.
Defined.

(** ** The list iteration macro *)

Lemma IaitoRListForeach_from_visited {A S : Type} (it : list (option A))
    (body : S → A → S) (st : S) :
  IaitoRListForeach_from it body st = foldl body st (visited it).
Proof.
  revert st. induction it as [|[x|] it IH]; intros st; simpl; [done| |done]. apply IH.
Qed.

Lemma visited_all {A : Type} (xs : list A) (rest : list (option A)) :
  visited (List.map Some xs ++ None :: rest) = xs ∧ visited (List.map Some xs) = xs.
Proof. induction xs as [|x xs [IH1 IH2]]; simpl; [done|]. by rewrite IH1, IH2. Qed.

(** X12.  [IaitoRListForeach] runs its body on the data of the nodes in
    order and stops at the first node whose data is null: the nodes after
    it are not visited; on a null list it does nothing. *)
Theorem IaitoRListForeach_stops_at_null {A S : Type} (xs : list A)
    (rest : list (option A)) (body : S → A → S) (st : S) :
  IaitoRListForeach (Some (List.map Some xs ++ None :: rest)) body st = foldl body st xs ∧
  IaitoRListForeach (Some (List.map Some xs)) body st = foldl body st xs ∧
  IaitoRListForeach None body st = st.
Proof.
  unfold IaitoRListForeach. rewrite !IaitoRListForeach_from_visited.
  destruct (visited_all xs rest) as [-> ->]. done.
Qed.

End AddressStrings.

(** * Further properties of the plugin manager *)

Set Warnings "-clear-no-such-hyp".

Section ManagerFacts.
Import PluginManager.

Variable env : Env.
Implicit Types (s : Manager) (p : nat) (ps : list nat).

(** ** What a directory of native modules gives *)

Lemma loadNativePlugin_pointer directory s fileName :
  plugins (loadNativePlugin env directory s fileName)
  = plugins s ++ List.map Some (option_list (nativePointer env directory fileName)) ∧
  lifecycle (loadNativePlugin env directory s fileName)
  = lifecycle s ++ setupAndPush (option_list (nativePointer env directory fileName)) ∧
  dirs (loadNativePlugin env directory s fileName) = dirs s ∧
  pythonPath (loadNativePlugin env directory s fileName) = pythonPath s.
Proof.
  unfold loadNativePlugin, nativePointer, lifecycle.
  destruct (instance env _) as [plugin|].
  - destruct (qobject_cast plugin) as [p|]; simpl.
    + rewrite !List.filter_app, <- List.app_assoc. done.
    + by rewrite !app_nil_r.
  - destruct (negb _); simpl; by rewrite ?List.filter_app, !app_nil_r.
Qed.

Lemma omap_cons_option_list {A B} (f : A → option B) (x : A) (l : list A) :
  omap f (x :: l) = option_list (f x) ++ omap f l.
Proof. simpl. by destruct (f x). Qed.

Lemma loadNativePlugins_files directory (files : list string) s :
  let s' := foldl (loadNativePlugin env directory) s files in
  plugins s' = plugins s ++ List.map Some (omap (nativePointer env directory) files) ∧
  lifecycle s' = lifecycle s ++ setupAndPush (omap (nativePointer env directory) files) ∧
  dirs s' = dirs s ∧ pythonPath s' = pythonPath s.
Proof.
  revert s. induction files as [|f files IH]; intros s.
  - simpl. by rewrite !app_nil_r.
  - cbv zeta. simpl foldl.
    destruct (IH (loadNativePlugin env directory s f)) as (Hp & Hl & Hd & Hy).
    destruct (loadNativePlugin_pointer directory s f) as (Hp1 & Hl1 & Hd1 & Hy1).
    rewrite Hp, Hl, Hd, Hy, Hp1, Hl1, Hd1, Hy1, omap_cons_option_list.
    unfold setupAndPush. rewrite List.map_app, flat_map_app, <- !List.app_assoc. done.
Qed.

(** X13.  A scan of a directory of native modules adds to the vector, in
    the order of the listing, exactly the pointers of the files whose root
    object loads and passes the cast, each after a call of [setupPlugin]; a
    file that fails does not stop the files after it; the scan creates no
    directory and does not touch the interpreter. *)
Theorem native_scan_adds_loadable directory s :
  let files := entryList_Files env (absolutePath env directory) in
  let s' := loadNativePlugins env directory s in
  plugins s' = plugins s ++ List.map Some (omap (nativePointer env directory) files) ∧
  lifecycle s' = lifecycle s ++ setupAndPush (omap (nativePointer env directory) files) ∧
  dirs s' = dirs s ∧ pythonPath s' = pythonPath s ∧
  (∀ before fileName after,
     files = before ++ fileName :: after → nativePointer env directory fileName = None →
     plugins s'
     = plugins s ++ List.map Some (omap (nativePointer env directory) (before ++ after))).
Proof.
  intros files s'.
  destruct (loadNativePlugins_files directory files s) as (Hp & Hl & Hd & Hy).
  split; [done|]. split; [done|]. split; [done|]. split; [done|].
  intros before fileName after Hf Hn. unfold s', loadNativePlugins. fold files.
  rewrite Hp, Hf, !omap_app, omap_cons_option_list, Hn. done.
Qed.

(** ** What a directory of Python modules gives *)

Lemma loadPythonPlugin_pointer moduleName s :
  fst (loadPythonPlugin env moduleName s) = pythonPointer env (pythonPath s) moduleName.
Proof.
  unfold loadPythonPlugin, pythonPointer.
  destruct (PyImport_ImportModule env (pythonPath s) moduleName) as [m|]; [|done].
  destruct (create_iaito_plugin m) as [f|]; [|done].
  destruct (callable f); simpl; [|done].
  destruct (call f) as [obj|]; [|done].
  destruct (convertible obj); simpl; [|done].
  by destruct (cppPointer obj).
Qed.

Lemma warnings_app (l1 l2 : list Event) : warnings (l1 ++ l2) = warnings l1 ++ warnings l2.
Proof. unfold warnings. apply List.filter_app. Qed.

(** Whether an entry is reported by a warning: it is not the cache
    directory and it gives no pointer. *)
Lemma loadPythonEntry_pointer s fileName :
  let s' := loadPythonEntry env s fileName in
  plugins s' = plugins s ++ List.map Some (option_list (entryPointer env (pythonPath s) fileName)) ∧
  lifecycle s'
  = lifecycle s ++ setupAndPush (option_list (entryPointer env (pythonPath s) fileName)) ∧
  dirs s' = dirs s ∧ pythonPath s' = pythonPath s ∧
  List.length (warnings (log s'))
  = (List.length (warnings (log s))
     + if String.eqb fileName "__pycache__" then 0
       else match entryPointer env (pythonPath s) fileName with
            | Some _ => 0
            | None => 1
            end)%nat.
Proof.
  unfold loadPythonEntry, entryPointer, lifecycle.
  destruct (String.eqb fileName "__pycache__").
  { simpl. rewrite !app_nil_r. repeat split; try done; lia. }
  set (moduleName := if endsWith fileName ".py" then chopped fileName 3 else fileName).
  rewrite <- (loadPythonPlugin_pointer moduleName s).
  destruct (loadPythonPlugin_cases env moduleName s) as [[p ->] | (message & subject & ->)]; simpl.
  - rewrite !warnings_app, !List.filter_app, !length_app, <- List.app_assoc. simpl.
    repeat split; try done; lia.
  - rewrite !warnings_app, !List.filter_app, !length_app, !app_nil_r. simpl.
    repeat split; try done.
Qed.

Lemma loadPythonEntries_pointer (entries : list string) s :
  let s' := foldl (loadPythonEntry env) s entries in
  plugins s' = plugins s ++ List.map Some (omap (entryPointer env (pythonPath s)) entries) ∧
  lifecycle s' = lifecycle s ++ setupAndPush (omap (entryPointer env (pythonPath s)) entries) ∧
  dirs s' = dirs s ∧ pythonPath s' = pythonPath s ∧
  List.length (warnings (log s'))
  = (List.length (warnings (log s))
     + List.length (List.filter
                      (fun fileName =>
                         negb (String.eqb fileName "__pycache__")
                         && negb (bool_decide (is_Some (entryPointer env (pythonPath s) fileName))))
                      entries))%nat.
Proof.
  revert s. induction entries as [|f entries IH]; intros s.
  - simpl. rewrite !app_nil_r. repeat split; try done; lia.
  - cbv zeta. simpl foldl.
    destruct (IH (loadPythonEntry env s f)) as (Hp & Hl & Hd & Hy & Hw).
    destruct (loadPythonEntry_pointer s f) as (Hp1 & Hl1 & Hd1 & Hy1 & Hw1).
    rewrite Hy1 in *.
    rewrite Hp, Hl, Hd, Hy, Hw, Hp1, Hl1, Hd1, Hw1, omap_cons_option_list.
    unfold setupAndPush. rewrite List.map_app, flat_map_app, <- !List.app_assoc.
    repeat split; try done. simpl List.filter.
    destruct (String.eqb f "__pycache__"); simpl; [lia|].
    destruct (entryPointer env (pythonPath s) f); simpl; lia.
Qed.



(** ** File names and module names *)

Lemma substring_append_skip (a b : string) (n : nat) :
  substring (String.length a) n (a +:+ b) = substring 0 n b.
Proof. induction a as [|c a IH]; [done|]. by rewrite append_cons. Qed.

Lemma substring_whole (b : string) : substring 0 (String.length b) b = b.
Proof. induction b as [|c b IH]; simpl; [done|]. by rewrite IH. Qed.

Lemma substring_append_prefix (a b : string) :
  substring 0 (String.length a) (a +:+ b) = a.
Proof.
  induction a as [|c a IH]; [by destruct b|]. rewrite append_cons. simpl. by rewrite IH.
Qed.

Lemma module_of_py (m : string) :
  endsWith (m +:+ ".py") ".py" = true ∧ chopped (m +:+ ".py") 3 = m ∧
  String.eqb (m +:+ ".py") "__pycache__" = false.
Proof.
  assert (endsWith (m +:+ ".py") ".py" = true) as He.
  { unfold endsWith. rewrite length_append. simpl String.length.
    replace (String.length m + 3 - 3)%nat with (String.length m) by lia.
    rewrite substring_append_skip. simpl substring.
    apply andb_true_iff. split; [apply Nat.leb_le; lia|done]. }
  split; [done|]. split.
  - unfold chopped. rewrite length_append. simpl String.length.
    replace (String.length m + 3 - 3)%nat with (String.length m) by lia.
    apply substring_append_prefix.
  - destruct (String.eqb_spec (m +:+ ".py") "__pycache__") as [Heq|]; [|done].
    rewrite Heq in He. vm_compute in He. discriminate.
Qed.

(** X15.  The file [m.py] and the entry [m] (a package directory) name the
    same module [m]: the scan treats both in the same way, so that a
    directory which holds both imports the module twice and activates what
    its factory returns twice. *)
Theorem py_file_and_package_same_module (m : string) s :
  endsWith m ".py" = false → m ≠ "__pycache__" →
  loadPythonEntry env s (m +:+ ".py") = loadPythonEntry env s m ∧
  entryPointer env (pythonPath s) (m +:+ ".py") = pythonPointer env (pythonPath s) m ∧
  ∀ p, pythonPointer env (pythonPath s) m = Some p →
       plugins (foldl (loadPythonEntry env) s [m; m +:+ ".py"])
       = plugins s ++ [Some p; Some p].
Proof.
  intros Hm Hc. destruct (module_of_py m) as (He & Hch & Hn).
  assert (String.eqb m "__pycache__" = false) as Hn' by (by apply String.eqb_neq).
  assert (entryPointer env (pythonPath s) (m +:+ ".py") = pythonPointer env (pythonPath s) m)
    as Hp1.
  { unfold entryPointer. by rewrite Hn, He, Hch. }
  assert (entryPointer env (pythonPath s) m = pythonPointer env (pythonPath s) m) as Hp2.
  { unfold entryPointer. by rewrite Hn', Hm. }
  split; [|split; [done|]].
  - unfold loadPythonEntry. by rewrite Hn, Hn', He, Hch, Hm.
  - intros p Hp.
    destruct (loadPythonEntries_pointer [m; m +:+ ".py"] s) as (H & _).
    rewrite H. simpl. by rewrite Hp1, Hp2, Hp.
Qed.

(** ** Directories and the interpreter *)












(** ** The report of a directory *)

Lemma exists_dirs path s s' : dirs s' = dirs s → exists_ env path s' = exists_ env path s.
Proof. unfold exists_. by intros ->. Qed.

Lemma cd_dirs dir name s s' : dirs s' = dirs s → cd env dir name s' = cd env dir name s.
Proof. unfold cd. intros H. by rewrite (exists_dirs _ s s' H). Qed.

(** X17.  [loadPluginsFromDir] reports the directory first.  When the
    directory does not exist it does nothing else: it creates nothing, also
    in a writable directory.  Otherwise its last report is the number of
    plugins the directory has added to the vector, and the plugins that were
    in the vector stay where they are. *)
Theorem loadPluginsFromDir_reports pluginsDir writable s :
  let s' := loadPluginsFromDir env pluginsDir writable s in
  (exists_ env pluginsDir s = false →
   s' = emit (LoadedFrom (absolutePath env pluginsDir)) s) ∧
  (exists_ env pluginsDir s = true →
   ∃ events added,
     log s' = log s ++ [LoadedFrom (absolutePath env pluginsDir)] ++ events
              ++ [Loaded (Z.of_nat (List.length added))] ∧
     plugins s' = plugins s ++ List.map Some added ∧
     List.filter isLifecycle events = setupAndPush added).
Proof.
  intros s'. split.
  - intros He. unfold s', loadPluginsFromDir.
    rewrite (exists_dirs pluginsDir s (emit _ s) eq_refl), He. done.
  - intros He. unfold s', loadPluginsFromDir.
    set (s0 := emit (LoadedFrom (absolutePath env pluginsDir)) s).
    rewrite (exists_dirs pluginsDir s s0 eq_refl), He. simpl negb. cbv iota.
    set (s1 := if writable then mkdir env pluginsDir "native" s0 else s0).
    assert (grows env [] [] s0 s1) as H1.
    { unfold s1. destruct writable; [apply grows_mkdir|apply grows_refl]. }
    set (s2 := match cd env pluginsDir "native" s1 with
               | Some nativePluginsDir => loadNativePlugins env nativePluginsDir s1
               | None => s1
               end).
    assert (∃ ps, grows env [] ps s1 s2) as [ps2 H2].
    { unfold s2. destruct (cd env pluginsDir "native" s1).
      - apply loadNativePlugins_grows.
      - exists []. apply grows_refl. }
    match goal with
    | |- context [emit (Loaded ?n) ?x] => set (s3 := x); set (n3 := n)
    end.
    assert (∃ ps, grows env [] ps s2 s3) as [ps3 H3].
    { unfold s3. destruct (IAITO_ENABLE_PYTHON_BINDINGS env); [|exists []; apply grows_refl].
      set (s2' := if writable then mkdir env pluginsDir "python" s2 else s2).
      assert (grows env [] [] s2 s2') as H2'.
      { unfold s2'. destruct writable; [apply grows_mkdir|apply grows_refl]. }
      destruct (cd env pluginsDir "python" s2') as [pythonPluginsDir|].
      - destruct (loadPythonPlugins_grows env (absolutePath env pythonPluginsDir) s2')
          as [ps H].
        exists ps. by eapply grows_step.
      - by exists []. }
    pose proof (grows_step _ _ _ _ _ _ H1 (grows_trans _ _ _ _ _ _ _ _ H2 H3)) as H.
    destruct H as (blocks & Hp & Hl & Hb & Ha & _).
    unfold n3. clear n3.
    exists (flat_map render blocks), (ps2 ++ ps3).
    change (log (emit ?e ?x)) with (log x ++ [e]).
    change (plugins (emit ?e ?x)) with (plugins x).
    rewrite Hl, Hp. change (log s0) with (log s ++ [LoadedFrom (absolutePath env pluginsDir)]).
    change (plugins s0) with (plugins s).
    assert (Z.of_nat (List.length (plugins s ++ List.map Some (ps2 ++ ps3)))
            - Z.of_nat (List.length (plugins s))
            = Z.of_nat (List.length (ps2 ++ ps3))) as ->.
    { rewrite length_app, length_map. lia. }
    split; [by rewrite <- !List.app_assoc|]. split; [done|].
    rewrite <- Ha. by apply (render_lifecycle env).
Qed.

(** ** Loading twice *)

Lemma plugins_destroyPlugins s : plugins (destroyPlugins s) = [].
Proof. done. Qed.

(** X18.  [loadPlugins] is aborted by its assertion exactly when the build
    has assertions and the vector is not empty, whether plugins are enabled
    or not.  A load that is not aborted keeps the plugins of the vector in
    their place and adds behind them the ones it activates, each set up
    right before its push, and it calls no [terminate] and deletes nothing:
    in a build with [NDEBUG] a second load does not replace the plugins of
    the first.  With plugins disabled a load changes nothing, and after
    [destroyPlugins] a load is never aborted. *)
Theorem loadPlugins_assertion enable s :
  (loadPlugins env enable s = None ↔ NDEBUG env = false ∧ plugins s ≠ []) ∧
  (∀ s', loadPlugins env enable s = Some s' →
     (enable = false → s' = s) ∧
     ∃ ps, plugins s' = plugins s ++ List.map Some ps ∧
           lifecycle s' = lifecycle s ++ setupAndPush ps ∧
           Forall (satisfiesContract env) ps) ∧
  loadPlugins env enable (destroyPlugins s) ≠ None.
Proof.
  assert (∀ e x, loadPlugins env e x = None ↔ NDEBUG env = false ∧ plugins x ≠ []) as H.
  { intros e x. unfold loadPlugins.
    pose proof (assert_passes env (bool_decide (plugins x = []))) as Ha.
    destruct (assert env (bool_decide (plugins x = []))).
    - split.
      + destruct e; simpl; [|done]. by destruct (getUserPluginsDirectory env x).
      + intros [Hn He]. destruct Ha as [_ Ha].
        assert (NDEBUG env = false ∧ bool_decide (plugins x = []) = false) as Hf.
        { split; [done|]. by apply bool_decide_eq_false_2. }
        by apply Ha in Hf.
    - split; [|done]. intros _. destruct Ha as [Ha _].
      destruct (Ha eq_refl) as [Hn Hb].
      split; [done|]. by apply bool_decide_eq_false_1 in Hb. }
  split; [apply H|]. split.
  - intros s' Hs. split.
    + intros ->. unfold loadPlugins in Hs. destruct (assert env _); [|done].
      simpl in Hs. congruence.
    + destruct (loadPlugins_grows env enable s s' Hs)
        as (scans & ps & blocks & Hp & Hl & Hb & Ha & _).
      exists ps. split; [done|]. unfold lifecycle. rewrite Hl, List.filter_app.
      subst ps. split; [by rewrite (render_lifecycle env)|by apply render_contract].
  - intros [_ Hn]%H. by apply Hn.
Qed.

(** ** Setup and teardown *)

Lemma terminateCalls_lifecycle p (l : list Event) :
  terminateCalls p (List.filter isLifecycle l) = terminateCalls p l ∧
  deleteCalls p (List.filter isLifecycle l) = deleteCalls p l.
Proof.
  unfold terminateCalls, deleteCalls. induction l as [|e l [IH1 IH2]]; simpl; [done|].
  destruct e; simpl; try done.
  - destruct (plugin =? p)%nat; simpl; by rewrite IH1, IH2.
  - destruct (plugin =? p)%nat; simpl; by rewrite IH1, IH2.
Qed.

Lemma calls_setupAndPush p ps :
  terminateCalls p (setupAndPush ps) = 0%nat ∧ deleteCalls p (setupAndPush ps) = 0%nat.
Proof.
  unfold terminateCalls, deleteCalls, setupAndPush.
  induction ps as [|q ps [IH1 IH2]]; simpl; done.
Qed.

Lemma calls_terminateAndDelete p (qs : list (option nat)) :
  setupCalls p (terminateAndDelete qs) = 0%nat ∧
  terminateCalls p (terminateAndDelete qs) = occurrences p qs ∧
  deleteCalls p (terminateAndDelete qs) = occurrences p qs.
Proof.
  unfold setupCalls, terminateCalls, deleteCalls, terminateAndDelete, occurrences.
  induction qs as [|[q|] qs (IH1 & IH2 & IH3)]; simpl; [done| |done].
  destruct (q =? p)%nat; simpl; by rewrite IH1, IH2, IH3.
Qed.

Lemma calls_app p (l1 l2 : list Event) :
  setupCalls p (l1 ++ l2) = (setupCalls p l1 + setupCalls p l2)%nat ∧
  terminateCalls p (l1 ++ l2) = (terminateCalls p l1 + terminateCalls p l2)%nat ∧
  deleteCalls p (l1 ++ l2) = (deleteCalls p l1 + deleteCalls p l2)%nat.
Proof.
  unfold setupCalls, terminateCalls, deleteCalls.
  by rewrite !List.filter_app, !length_app.
Qed.

Lemma terminateAndDelete_app (qs1 qs2 : list (option nat)) :
  terminateAndDelete (qs1 ++ qs2) = terminateAndDelete qs1 ++ terminateAndDelete qs2.
Proof. unfold terminateAndDelete. apply flat_map_app. Qed.

Lemma occurrences_none p (qs : list (option nat)) :
  Some p ∉ qs → occurrences p qs = 0%nat.
Proof.
  unfold occurrences. induction qs as [|[q|] qs IH]; intros Hn; simpl; [done| |].
  - destruct (Nat.eqb_spec q p) as [->|_].
    + exfalso. apply Hn. left.
    + apply IH. intros Hin. apply Hn. by right.
  - apply IH. intros Hin. apply Hn. by right.
Qed.

(** X19.  When no pointer is in the vector twice after [loadPlugins], every
    plugin of the vector goes through its whole life from the start of the
    process to the end of [destroyPlugins]: [setupPlugin] is called on it
    once, later [terminate] once, and right after that it is deleted, once.
    On a pointer that is not in the vector none of the three happens.  A
    second [destroyPlugins] does nothing. *)
Theorem setup_and_teardown_balance d0 enable s' p :
  loadPlugins env enable (new d0) = Some s' →
  NoDup (plugins s') →
  let l := log (destroyPlugins s') in
  (Some p ∈ plugins s' →
   setupCalls p l = 1%nat ∧ terminateCalls p l = 1%nat ∧ deleteCalls p l = 1%nat ∧
   ∃ before between after,
     l = before ++ SetupPlugin p :: between ++ Terminate p :: Delete p :: after) ∧
  (Some p ∉ plugins s' →
   setupCalls p l = 0%nat ∧ terminateCalls p l = 0%nat ∧ deleteCalls p l = 0%nat) ∧
  destroyPlugins (destroyPlugins s') = destroyPlugins s'.
Proof.
  intros H Hd l. destruct (loaded_shape env d0 enable s' H) as (ps & Hp & Hl & _).
  assert (setupCalls p l = occurrences p (plugins s') ∧
          terminateCalls p l = occurrences p (plugins s') ∧
          deleteCalls p l = occurrences p (plugins s')) as Hcount.
  { unfold l. rewrite destroyPlugins_log.
    destruct (calls_app p (log s') (terminateAndDelete (plugins s'))) as (-> & -> & ->).
    destruct (calls_terminateAndDelete p (plugins s')) as (-> & -> & ->).
    destruct (terminateCalls_lifecycle p (log s')) as [<- <-].
    rewrite <- (setupCalls_lifecycle p (log s')). fold (lifecycle s'). rewrite Hl.
    destruct (calls_setupAndPush p ps) as [-> ->].
    rewrite setupCalls_setupAndPush, Hp. split; [lia|done]. }
  split; [|split].
  - intros Hin.
    assert (p ∈ ps) as Hps.
    { rewrite Hp in Hin. apply list_elem_of_In, List.in_map_iff in Hin.
      destruct Hin as (q & [= ->] & Hq). by apply list_elem_of_In. }
    assert (occurrences p (plugins s') = 1%nat) as Hone.
    { rewrite Hp. apply occurrences_once; [|done].
      rewrite Hp in Hd. by apply (NoDup_fmap_1 Some). }
    destruct Hcount as (-> & -> & ->). repeat (split; [exact Hone|]).
    assert (SetupPlugin p ∈ log s') as Hs.
    { assert (SetupPlugin p ∈ lifecycle s') as Hs.
      { rewrite Hl. unfold setupAndPush. apply list_elem_of_In, List.in_flat_map.
        exists p. split; [by apply list_elem_of_In|by left]. }
      unfold lifecycle in Hs. apply list_elem_of_In, List.filter_In in Hs.
      apply list_elem_of_In, Hs. }
    destruct (list_elem_of_split _ _ Hs) as (before & rest & Hlog).
    destruct (list_elem_of_split _ _ Hin) as (qs1 & qs2 & Hqs).
    exists before, (rest ++ terminateAndDelete qs1), (terminateAndDelete qs2).
    unfold l. rewrite destroyPlugins_log, Hqs, terminateAndDelete_app, Hlog.
    simpl. by rewrite <- !List.app_assoc.
  - intros Hn. destruct Hcount as (-> & -> & ->).
    by rewrite occurrences_none.
  - by apply destroyPlugins_empty.
Qed.

(** ** What a directory that is only read contributes *)


(** ** The list of extra directories *)

Lemma occurs_append c (a b : string) : occurs c (a +:+ b) = occurs c a || occurs c b.
Proof.
  induction a as [|x a IH]; [done|]. rewrite append_cons. simpl.
  by rewrite IH, orb_assoc.
Qed.

Lemma split_from_part sep (part rest acc : string) :
  occurs sep part = false →
  split_from sep part acc = [acc +:+ part] ∧
  split_from sep (part +:+ String sep rest) acc
  = (acc +:+ part) :: split_from sep rest EmptyString.
Proof.
  revert acc. induction part as [|c part IH]; intros acc Hp.
  - rewrite append_empty_r. split; [done|].
    change (EmptyString +:+ String sep rest) with (String sep rest). simpl.
    by rewrite Ascii.eqb_refl.
  - simpl in Hp. apply orb_false_iff in Hp as [Hc Hp].
    destruct (IH (acc +:+ String c EmptyString) Hp) as [IH1 IH2].
    rewrite append_cons. simpl. rewrite Hc, IH1, IH2, append_assoc. done.
Qed.

Lemma split_from_free sep (text acc : string) :
  occurs sep acc = false →
  Forall (fun part => occurs sep part = false) (split_from sep text acc).
Proof.
  revert acc. induction text as [|c text IH]; intros acc Ha; simpl.
  - by repeat constructor.
  - destruct (Ascii.eqb c sep) eqn:Hc.
    + constructor; [done|]. by apply IH.
    + apply IH. rewrite occurs_append. simpl. by rewrite Ha, Hc.
Qed.

Lemma split_parts sep (text : string) : Forall (isPart sep) (split sep text).
Proof.
  unfold split, isPart. apply Forall_forall. intros part Hin%list_elem_of_In.
  apply List.filter_In in Hin as [Hin Hne]. split.
  - intros ->. done.
  - pose proof (split_from_free sep text EmptyString eq_refl) as H.
    rewrite Forall_forall in H. by apply H, list_elem_of_In.
Qed.

Lemma split_join sep (parts : list string) :
  Forall (isPart sep) parts → split sep (join sep parts) = parts.
Proof.
  unfold split. induction parts as [|part parts IH]; intros Hp; [done|].
  apply Forall_cons in Hp as [[Hne Hfree] Hp].
  assert (negb (String.eqb part EmptyString) = true) as Hk.
  { apply negb_true_iff. by apply String.eqb_neq. }
  destruct parts as [|next parts].
  - simpl join. destruct (split_from_part sep part EmptyString EmptyString Hfree) as [-> _].
    change (EmptyString +:+ part) with part. simpl. by rewrite Hk.
  - change (join sep (part :: next :: parts))
      with (part +:+ String sep (join sep (next :: parts))).
    destruct (split_from_part sep part (join sep (next :: parts)) EmptyString Hfree)
      as [_ ->].
    simpl List.filter. change (EmptyString +:+ part) with part. rewrite Hk.
    f_equal. by apply IH.
Qed.

(** X21.  The extra plugin directories are the parts of
    [IAITO_EXTRA_PLUGIN_DIRS] between the separators: no part is empty and
    none holds the separator, so that empty entries of the list are dropped;
    a list written as directories with one separator between them gives
    these directories back, in order, after the standard locations. *)
Theorem extra_directories_are_the_parts s (parts : list string) :
  Forall (isPart (listSeparator env))
    (split (listSeparator env) (IAITO_EXTRA_PLUGIN_DIRS env)) ∧
  (Forall (isPart (listSeparator env)) parts →
   IAITO_EXTRA_PLUGIN_DIRS env = join (listSeparator env) parts →
   ∃ appimage,
     (APPIMAGE env = false → appimage = []) ∧
     getPluginDirectories env s
     = List.map (fun location => filePath location "plugins") (standardLocations env)
       ++ appimage ++ parts).
Proof.
  split; [apply split_parts|]. intros Hp He.
  destruct (getPluginDirectories_shape env s) as (appimage & Hd & Ha & _).
  exists appimage. split; [done|]. by rewrite Hd, He, split_join.
Qed.

(** ** The user plugin directory *)

(** X22.  [getUserPluginsDirectory] gives the empty string, and changes
    nothing, when there is no writable data location.  Otherwise it gives
    the directory [plugins] under that location, which exists afterwards,
    when the directory is there or can be created, and the empty string
    when it is not there and cannot be created. *)
Theorem getUserPluginsDirectory_cases s :
  let location := writableLocation env in
  let pluginsDir := absolutePath env (filePath location "plugins") in
  (location = EmptyString → getUserPluginsDirectory env s = (EmptyString, s)) ∧
  (location ≠ EmptyString → pluginsDir ∈ dirs s ∨ mayCreate env pluginsDir = true →
   fst (getUserPluginsDirectory env s) = pluginsDir ∧
   pluginsDir ∈ dirs (snd (getUserPluginsDirectory env s))) ∧
  (location ≠ EmptyString → pluginsDir ∉ dirs s → mayCreate env pluginsDir = false →
   getUserPluginsDirectory env s = (EmptyString, s)).
Proof.
  intros location pluginsDir. unfold getUserPluginsDirectory. fold location.
  split; [by intros ->|].
  split.
  - intros Hl%String.eqb_neq Hc. rewrite Hl.
    assert (pluginsDir ∈ dirs (mkpath env location "plugins" s)) as Hin.
    { unfold mkpath, mkdir. fold pluginsDir. destruct (mayCreate env pluginsDir) eqn:Hm.
      - simpl. set_solver.
      - by destruct Hc. }
    unfold cd, exists_. fold pluginsDir. by rewrite bool_decide_eq_true_2.
  - intros Hl%String.eqb_neq Hn Hm. rewrite Hl.
    unfold mkpath, mkdir, cd, exists_. fold pluginsDir. rewrite Hm.
    by rewrite bool_decide_eq_false_2.
Qed.

End ManagerFacts.

(** ** The further properties at the installation [twiceListed] *)

Section ManagerFactsWitnesses.
Import PluginManager.

Lemma native_scan_adds_loadable_witness :
  plugins (loadNativePlugins twiceListed "/opt/p/native" (new twiceListedDirs))
  = [Some 7%nat].
Proof.
  exact (proj2 (proj2 (proj2 (proj2
           (native_scan_adds_loadable twiceListed "/opt/p/native" (new twiceListedDirs)))))
           ["a.so"] "b.so" ["c.txt"] eq_refl eq_refl).
Defined.

Lemma py_file_and_package_same_module_witness :
  loadPythonEntry twiceListed (new twiceListedDirs) ("m" +:+ ".py")
  = loadPythonEntry twiceListed (new twiceListedDirs) "m".
Proof.
  apply (proj1 (py_file_and_package_same_module twiceListed "m" (new twiceListedDirs)
                  eq_refl ltac:(discriminate))).
Defined.


Lemma loadPluginsFromDir_reports_witness :
  ∃ events added,
    log (loadPluginsFromDir twiceListed "/opt/p" false (new twiceListedDirs))
    = [LoadedFrom "/opt/p"] ++ events ++ [Loaded (Z.of_nat (List.length added))] ∧
    plugins (loadPluginsFromDir twiceListed "/opt/p" false (new twiceListedDirs))
    = List.map Some added.
Proof.
  destruct (proj2 (loadPluginsFromDir_reports twiceListed "/opt/p" false
                     (new twiceListedDirs)) ltac:(vm_compute; reflexivity))
    as (events & added & Hl & Hp & _).
  exists events, added. split; [exact Hl|exact Hp].
Defined.

Lemma twiceListedRelease_loads_twice :
  ∃ s' s'', loadPlugins twiceListedRelease true (new twiceListedDirs) = Some s' ∧
            loadPlugins twiceListedRelease true s' = Some s'' ∧
            plugins s' = [Some 7%nat; Some 9%nat; Some 7%nat; Some 9%nat] ∧
            plugins s'' = plugins s' ++ plugins s'.
Proof.
  do 2 eexists. split; [vm_compute; reflexivity|].
  split; [vm_compute; reflexivity|]. split; vm_compute; reflexivity.
Defined.

Lemma loadPlugins_assertion_witness :
  (∃ s', loadPlugins twiceListed true (new twiceListedDirs) = Some s' ∧
         loadPlugins twiceListed true s' = None) ∧
  (∃ s' s'' ps, loadPlugins twiceListedRelease true (new twiceListedDirs) = Some s' ∧
                loadPlugins twiceListedRelease true s' = Some s'' ∧
                plugins s'' = plugins s' ++ List.map Some ps).
Proof.
  split.
  - destruct twiceListed_loads as (s' & H & Hp & _). exists s'. split; [exact H|].
    apply (proj1 (loadPlugins_assertion twiceListed true s')).
    split; [reflexivity|]. rewrite Hp. discriminate.
  - destruct twiceListedRelease_loads_twice as (s' & s'' & H1 & H2 & _).
    destruct (proj2 (proj1 (proj2 (loadPlugins_assertion twiceListedRelease true s'))
                       s'' H2)) as (ps & Hp & _).
    exists s', s'', ps. split; [exact H1|]. split; [exact H2|exact Hp].
Defined.

Lemma onceListed_loads :
  ∃ s', loadPlugins onceListed true (new twiceListedDirs) = Some s' ∧
        plugins s' = [Some 7%nat; Some 9%nat].
Proof. eexists. split; vm_compute; reflexivity. Defined.

Lemma setup_and_teardown_balance_witness :
  ∃ s', loadPlugins onceListed true (new twiceListedDirs) = Some s' ∧
        NoDup (plugins s') ∧ Some 7%nat ∈ plugins s' ∧
        setupCalls 7 (log (destroyPlugins s')) = 1%nat ∧
        terminateCalls 7 (log (destroyPlugins s')) = 1%nat ∧
        deleteCalls 7 (log (destroyPlugins s')) = 1%nat.
Proof.
  destruct onceListed_loads as (s' & H & Hp). exists s'.
  assert (NoDup (plugins s')) as Hd.
  { rewrite Hp. apply NoDup_cons. split; [|apply NoDup_singleton].
    intros Hin%list_elem_of_In. by destruct Hin as [Hin|[]]. }
  assert (Some 7%nat ∈ plugins s') as Hin by (rewrite Hp; left).
  destruct (proj1 (setup_and_teardown_balance onceListed twiceListedDirs true s' 7%nat H Hd) Hin)
    as (Hs & Ht & Hx & _).
  split; [exact H|]. split; [exact Hd|]. split; [exact Hin|].
  split; [exact Hs|]. split; [exact Ht|exact Hx].
Defined.

Lemma extra_directories_are_the_parts_witness :
  ∃ appimage,
    getPluginDirectories twiceListed (new twiceListedDirs)
    = List.map (fun location => filePath location "plugins") (standardLocations twiceListed)
      ++ appimage ++ ["/opt/p"; "/opt/p"].
Proof.
  destruct (proj2 (extra_directories_are_the_parts twiceListed (new twiceListedDirs)
                     ["/opt/p"; "/opt/p"])
              ltac:(repeat constructor; discriminate) eq_refl) as (appimage & _ & H).
  exists appimage. exact H.
Defined.

Lemma getUserPluginsDirectory_cases_witness :
  fst (getUserPluginsDirectory twiceListed (new twiceListedDirs))
  = "/home/u/.local/share/iaito/plugins".
Proof.
  apply (proj1 (proj2 (getUserPluginsDirectory_cases twiceListed (new twiceListedDirs)))).
  - discriminate.
  - right. reflexivity.
Defined.

End ManagerFactsWitnesses.
